(** * tools/signpost_summary.py: interval reconstruction from signpost rows

    A shallow embedding of the script that summarises os_signpost events
    exported by xctrace: the label resolvers, the row extractor, the
    subsystem/category filter, the begin/end correlator, the per-name
    aggregation and the percentile estimator.

    Conventions of the embedding.
    - A Python [str] is a [string]; [None] is [None]; a value of type
      [str | None] is an [option string] and its truth value is [truthy].
      Labels are taken to be ASCII: [strip] removes the ASCII characters
      for which [str.isspace] holds and [lower] maps [A-Z] to [a-z].
    - A Python [int] is a [Z].
    - A Python [float] is an exact rational ([Q]); [float("nan")] and a
      raised [IndexError] are separate constructors of [pyres].  The
      percentile estimator is given a second time over IEEE 754 binary64
      ([Binary64]), where it is evaluated on the inputs of the examples.
    - A [dict] used as a lookup table is a [gmap]; [durations_by_name],
      whose iteration order is visible in the report, is an association
      list in insertion order. *)

From Stdlib Require Import Ascii String QArith Qround Lqa.
From Corelib Require Import SpecFloat.
From stdpp Require Import gmap strings list sorting.

Set Warnings "-register-all".
Open Scope Z_scope.

(** ** Python string primitives *)

Module Py.

(** Truth value of a [str | None]: [None] and the empty string are false. *)
Definition truthy (o : option string) : bool :=
  match o with
  | Some (String _ _) => true
  | _ => false
  end.

(** [a or b] on [str | None] operands. *)
Definition or (a b : option string) : option string :=
  if truthy a then a else b.

(** [str.isspace] on an ASCII character: TAB, LF, VT, FF, CR, the four
    separators 0x1c-0x1f and the space. *)
Definition is_space (c : ascii) : bool :=
  let n := nat_of_ascii c in
  ((9 <=? n) && (n <=? 13) || (28 <=? n) && (n <=? 32))%nat.

Fixpoint lstrip (s : string) : string :=
  match s with
  | String c s' => if is_space c then lstrip s' else s
  | EmptyString => EmptyString
  end.

Definition rstrip (s : string) : string := String.rev (lstrip (String.rev s)).

(** [s.strip()] *)
Definition strip (s : string) : string := rstrip (lstrip s).

Definition lower_ascii (c : ascii) : ascii :=
  let n := nat_of_ascii c in
  if ((65 <=? n) && (n <=? 90))%nat then ascii_of_nat (n + 32) else c.

(** [s.lower()] *)
Fixpoint lower (s : string) : string :=
  match s with
  | String c s' => String (lower_ascii c) (lower s')
  | EmptyString => EmptyString
  end.

(** [needle in s] *)
Fixpoint contains (needle s : string) : bool :=
  String.prefix needle s ||
  match s with
  | String _ s' => contains needle s'
  | EmptyString => false
  end.

Definition digit (c : ascii) : option Z :=
  let n := nat_of_ascii c in
  if ((48 <=? n) && (n <=? 57))%nat then Some (Z.of_nat n - 48) else None.

(** Decimal digits with single underscores allowed between digits.
    [seen]: a digit has been read; [us]: the previous character was an
    underscore. *)
Fixpoint digits (s : string) (acc : Z) (seen us : bool) : option Z :=
  match s with
  | EmptyString => if seen && negb us then Some acc else None
  | String c s' =>
      match digit c with
      | Some d => digits s' (10 * acc + d) true false
      | None =>
          if bool_decide (c = "_"%char) && seen && negb us
          then digits s' acc true true
          else None
      end
  end.

(** [int(t)] for a [str] argument: surrounding white space, an optional
    sign, decimal digits; [None] stands for the [ValueError].  The bound
    that recent interpreters put on the number of digits is left out. *)
Definition int (t : string) : option Z :=
  match strip t with
  | String "+" r => digits r 0 false false
  | String "-" r => Z.opp <$> digits r 0 false false
  | r => digits r 0 false false
  end.

End Py.

(** ** Elements of the parsed document *)

(** An [xml.etree.ElementTree.Element]: tag, attribute dictionary, text
    (possibly [None]) and the list of sub-elements. *)
Inductive Element : Type :=
  mkElement {
    tag : string;
    attrib : gmap string string;
    text : option string;
    children : list Element
  }.

(** [elem.text or ""] followed by [.strip()] *)
Definition text_stripped (elem : Element) : string :=
  Py.strip (default EmptyString (text elem)).

(** [Element.clear()]: drops the sub-elements and the attributes and sets
    the text to [None]; the tag stays. *)
Definition clear (elem : Element) : Element :=
  {| tag := tag elem; attrib := ∅; text := None; children := [] |}.

(** ** Label resolvers *)

Definition _resolve_fmt (elem : option Element) (by_id : gmap string string)
  : option string :=
  match elem with
  | None => None
  | Some elem =>
      let fmt := attrib elem !! "fmt" in
      if Py.truthy fmt then fmt
      else
        let ref := attrib elem !! "ref" in
        if Py.truthy ref then ref ≫= λ r, by_id !! r
        else
          let text := text_stripped elem in
          if Py.truthy (Some text) then Some text else None
  end.

Definition _resolve_id (elem : option Element) : option string :=
  match elem with
  | None => None
  | Some elem => Py.or (attrib elem !! "ref") (attrib elem !! "id")
  end.

(** ** State of the pass *)

Module Args.
(** The parsed command line: the two filters and the row limit. *)
Record t := mk { subsystem : string; category : string; top : Z }.
(** The defaults of the argument parser. *)
Definition default : t :=
  {| subsystem := "engine-sim"; category := "perf"; top := 20 |}.
End Args.

(** The five id -> fmt lookup tables. *)
Record Tables := mkTables {
  event_type_fmt : gmap string string;
  signpost_name_fmt : gmap string string;
  subsystem_fmt : gmap string string;
  category_fmt : gmap string string;
  thread_fmt : gmap string string
}.

(** [open_intervals], [durations_by_name] and the two counters. *)
Record Corr := mkCorr {
  open_intervals : gmap (string * string) (Z * string * option string);
  durations_by_name : list (string * list Z);
  unmatched_ends : Z;
  matched : Z
}.

Record State := mkState { tabs : Tables; corr : Corr }.

Definition init : State :=
  {| tabs := mkTables ∅ ∅ ∅ ∅ ∅; corr := mkCorr ∅ [] 0 0 |}.

(** [if elem_id and fmt: table[elem_id] = fmt] *)
Definition memo (elem : Element) (table : gmap string string)
  : gmap string string :=
  match attrib elem !! "id", attrib elem !! "fmt" with
  | Some elem_id, Some fmt =>
      if Py.truthy (Some elem_id) && Py.truthy (Some fmt)
      then <[elem_id := fmt]> table
      else table
  | _, _ => table
  end.

(** Lines 86-110: capture the memoized fmt string of a definition node. *)
Definition capture (tb : Tables) (elem : Element) : Tables :=
  let 'mkTables et sn ss ca th := tb in
  if bool_decide (tag elem = "event-type") then mkTables (memo elem et) sn ss ca th
  else if bool_decide (tag elem = "signpost-name") then mkTables et (memo elem sn) ss ca th
  else if bool_decide (tag elem = "subsystem") then mkTables et sn (memo elem ss) ca th
  else if bool_decide (tag elem = "category") then mkTables et sn ss (memo elem ca) th
  else if bool_decide (tag elem = "thread") then mkTables et sn ss ca (memo elem th)
  else tb.

(** ** Row extraction (lines 117-163) *)

(** The local variables filled while the children of a row are read. *)
Record Row := mkRow {
  time_ns : option Z;
  time_fmt : option string;
  event_kind : option string;
  name : option string;
  subsystem : option string;
  category : option string;
  thread_id : option string;
  signpost_id : option string
}.

Definition row_init : Row := mkRow None None None None None None None None.

(** One iteration of [for child in list(elem)]. *)
Definition row_child (tb : Tables) (r : Row) (child : Element) : Row :=
  let 'mkRow t tf ek nm ss ca th sid := r in
  let ctag := tag child in
  if bool_decide (ctag = "event-time") || bool_decide (ctag = "sample-time") then
    let txt := text_stripped child in
    let t' := if Py.truthy (Some txt) then Py.int txt else t in
    mkRow t' (Py.or (attrib child !! "fmt") tf) ek nm ss ca th sid
  else if bool_decide (ctag = "event-type") then
    let fmt := _resolve_fmt (Some child) (event_type_fmt tb) in
    if Py.truthy fmt then mkRow t tf fmt nm ss ca th sid else r
  else if bool_decide (ctag = "signpost-name") then
    let fmt := _resolve_fmt (Some child) (signpost_name_fmt tb) in
    if Py.truthy fmt then mkRow t tf ek fmt ss ca th sid else r
  else if bool_decide (ctag = "subsystem") then
    let fmt := _resolve_fmt (Some child) (subsystem_fmt tb) in
    if Py.truthy fmt then mkRow t tf ek nm fmt ca th sid else r
  else if bool_decide (ctag = "category") then
    let fmt := _resolve_fmt (Some child) (category_fmt tb) in
    if Py.truthy fmt then mkRow t tf ek nm ss fmt th sid else r
  else if bool_decide (ctag = "thread") then
    mkRow t tf ek nm ss ca (Py.or (_resolve_id (Some child)) th) sid
  else if bool_decide (ctag = "os-signpost-identifier") then
    mkRow t tf ek nm ss ca th
      (Py.or (Py.or (attrib child !! "fmt") (Some (text_stripped child)))
             (attrib child !! "ref"))
  else r.

Definition parse_row (tb : Tables) (elem : Element) : Row :=
  fold_left (row_child tb) (children elem) row_init.

(** ** Correlator (lines 174-201) *)

(** [durations_by_name[name].append(dt)] on the insertion-ordered
    dictionary of sample lists. *)
Fixpoint dur_append (d : list (string * list Z)) (nm : string) (dt : Z)
  : list (string * list Z) :=
  match d with
  | [] => [(nm, [dt])]
  | (k, l) :: d' =>
      if bool_decide (k = nm) then (k, l ++ [dt]) :: d'
      else (k, l) :: dur_append d' nm dt
  end.

(** The samples held for a name: [durations_by_name.get(nm, [])] *)
Fixpoint samples_of (d : list (string * list Z)) (nm : string) : list Z :=
  match d with
  | [] => []
  | (k, l) :: d' => if bool_decide (k = nm) then l else samples_of d' nm
  end.

Definition is_begin (event_kind : string) : bool :=
  Py.contains "begin" (Py.lower event_kind).

Definition is_end (event_kind : string) : bool :=
  Py.contains "end" (Py.lower event_kind).

(** A record that passed the filters of lines 166-172: the values of
    [time_ns], [event_kind], [name], [thread_id], [signpost_id] and
    [time_fmt] that the rest of the loop body works with. *)
Record Event := mkEvent {
  ev_time : Z;
  ev_kind : string;
  ev_name : string;
  ev_thread : string;
  ev_id : string;
  ev_fmt : option string
}.

(** [key = (thread_id, signpost_id)] *)
Definition ev_key (e : Event) : string * string := (ev_thread e, ev_id e).

(** Lines 174-201: the loop body below the two filters. *)
Definition correlate (c : Corr) (e : Event) : Corr :=
  let 'mkCorr opened durs unm mat := c in
  let 'mkEvent time_ns event_kind name thread_id signpost_id time_fmt := e in
  if negb (is_begin event_kind || is_end event_kind) then c
  else
    let key := (thread_id, signpost_id) in
    if is_begin event_kind && negb (is_end event_kind) then
      mkCorr (<[key := (time_ns, name, time_fmt)]> opened) durs unm mat
    else if is_end event_kind && negb (is_begin event_kind) then
      (* start = open_intervals.pop(key, None) *)
      let start := opened !! key in
      let opened := delete key opened in
      match start with
      | None => mkCorr opened durs (unm + 1) mat
      | Some (start_ns, start_name, _start_fmt) =>
          let name_to_use :=
            if bool_decide (start_name ≠ name) then start_name else name in
          let dt := time_ns - start_ns in
          if 0 <=? dt
          then mkCorr opened (dur_append durs name_to_use dt) unm (mat + 1)
          else mkCorr opened durs unm mat
      end
    else c.

(** The two filters of lines 166-172. *)
Definition subsystem_category_ok (args : Args.t) (r : Row) : bool :=
  bool_decide (subsystem r = Some (Args.subsystem args)) &&
  bool_decide (category r = Some (Args.category args)).

Definition required_ok (r : Row) : bool :=
  bool_decide (is_Some (time_ns r)) && Py.truthy (event_kind r) &&
  Py.truthy (name r) && Py.truthy (thread_id r) && Py.truthy (signpost_id r).

(** The record handed to the rest of the loop body, [None] when one of the
    two filters takes the [continue]. *)
Definition accepted (args : Args.t) (r : Row) : option Event :=
  if negb (subsystem_category_ok args r) then None
  else if negb (required_ok r) then None
  else
    match time_ns r, event_kind r, name r, thread_id r, signpost_id r with
    | Some t, Some ek, Some nm, Some th, Some sid =>
        Some (mkEvent t ek nm th sid (time_fmt r))
    | _, _, _, _, _ => None
    end.

(** The loop body for an element whose tag is [row]. *)
Definition loop_row (args : Args.t) (st : State) (elem : Element) : State :=
  match accepted args (parse_row (tabs st) elem) with
  | None => st
  | Some e => mkState (tabs st) (correlate (corr st) e)
  end.

(** One iteration of [for _event, elem in it], on the element as the
    iteration finds it. *)
Definition loop_body (args : Args.t) (st : State) (elem : Element) : State :=
  let st := mkState (capture (tabs st) elem) (corr st) in
  if bool_decide (tag elem ≠ "row") then st else loop_row args st elem.

(** ** The pass over the document *)

(** The pass over a stream of elements, each taken as the iteration finds
    it, from the initial state of [main]. *)
Definition run (args : Args.t) (stream : list Element) : State :=
  fold_left (loop_body args) stream init.

(** [ET.iterparse(path, events=("end",))] hands out every element when its
    end tag is read, so the sub-elements of an element come before it.  The
    objects handed out are the nodes of the tree under construction: every
    path through the loop body ends in [elem.clear()], and the iteration for
    an element finds its sub-elements as the earlier iterations left them.
    [visit] threads the state of the pass through the tree in that order
    and returns the element as the pass leaves it. *)
Fixpoint visit (args : Args.t) (st : State) (elem : Element) {struct elem}
  : State * Element :=
  let 'mkElement tg at_ tx cs := elem in
  let '(st, cs) :=
    (fix visit_all (st : State) (cs : list Element) : State * list Element :=
       match cs with
       | [] => (st, [])
       | c :: cs =>
           let '(st, c) := visit args st c in
           let '(st, cs) := visit_all st cs in
           (st, c :: cs)
       end) st cs in
  let elem := mkElement tg at_ tx cs in
  (loop_body args st elem, clear elem).

(** The loop of [main] over the document whose root element is [root]. *)
Definition main_loop (args : Args.t) (root : Element) : State :=
  (visit args init root).1.

(** An element as the iteration for it finds it: its sub-elements have
    been cleared. *)
Definition seen (elem : Element) : Element :=
  {| tag := tag elem; attrib := attrib elem; text := text elem;
     children := clear <$> children elem |}.

(** The stream of elements of a document, in the order of their end tags,
    each as its iteration finds it. *)
Fixpoint events (elem : Element) : list Element :=
  flat_map events (children elem) ++ [seen elem].

(** ** Percentile estimator and report *)

(** What an expression of type [float] evaluates to: not-a-number, a
    number, or a raised [IndexError]. *)
Inductive pyres : Type :=
  | NaN
  | Float (q : Q)
  | IndexError.

(** Stable insertion into a list ordered by [key], ascending or, with
    [reverse], descending; equal keys keep their order of arrival. *)
Fixpoint insert_by {A} (key : A → Z) (reverse : bool) (x : A) (l : list A)
  : list A :=
  match l with
  | [] => [x]
  | y :: l' =>
      if (if reverse then key y <=? key x else key x <=? key y)
      then x :: l
      else y :: insert_by key reverse x l'
  end.

(** [sorted(l, key=key, reverse=reverse)] *)
Definition sort_by {A} (key : A → Z) (reverse : bool) (l : list A) : list A :=
  foldr (insert_by key reverse) [] l.

(** [sorted(values)] *)
Definition sorted (values : list Z) : list Z := sort_by id false values.

(** [l[i]] for a list: a negative index counts from the end; [None] stands
    for the [IndexError]. *)
Definition getitem (l : list Z) (i : Z) : option Z :=
  if 0 <=? i then l !! Z.to_nat i
  else if - Z.of_nat (length l) <=? i then l !! Z.to_nat (Z.of_nat (length l) + i)
  else None.

Definition _pct (values : list Z) (p : Q) : pyres :=
  match values with
  | [] => NaN
  | _ =>
      let values_sorted := sorted values in
      if bool_decide (length values_sorted = 1%nat) then
        match getitem values_sorted 0 with
        | Some v => Float (inject_Z v)
        | None => IndexError
        end
      else
        let idx := (p * inject_Z (Z.of_nat (length values_sorted) - 1))%Q in
        let lo := Qfloor idx in
        let hi := Qceiling idx in
        if bool_decide (lo = hi) then
          match getitem values_sorted lo with
          | Some v => Float (inject_Z v)
          | None => IndexError
          end
        else
          let frac := (idx - inject_Z lo)%Q in
          match getitem values_sorted lo, getitem values_sorted hi with
          | Some vlo, Some vhi =>
              Float (inject_Z vlo * (1 - frac) + inject_Z vhi * frac)%Q
          | _, _ => IndexError
          end
  end.

Definition ns_to_ms (ns : Q) : Q := (ns / 1000000)%Q.

(** [sum(durs)] and [max(durs) if durs else 0] *)
Definition sum (durs : list Z) : Z := foldr Z.add 0 durs.

Definition max_or_0 (durs : list Z) : Z :=
  match durs with
  | [] => 0
  | d :: durs' => foldr Z.max d durs'
  end.

(** One tuple of [rows]. *)
Record ReportRow := mkReportRow {
  row_total : Z;
  row_interval_name : string;
  row_count : nat;
  row_avg : pyres;
  row_p50 : pyres;
  row_p95 : pyres;
  row_max : Z
}.

Definition report_row (item : string * list Z) : ReportRow :=
  let '(interval_name, durs) := item in
  let total := sum durs in
  {| row_total := total;
     row_interval_name := interval_name;
     row_count := length durs;
     row_avg :=
       match durs with
       | [] => NaN
       | _ => Float (inject_Z total / inject_Z (Z.of_nat (length durs)))
       end;
     row_p50 := _pct durs (50 # 100);
     row_p95 := _pct durs (95 # 100);
     row_max := max_or_0 durs |}.

(** Lines 207-222: one row per interval name, sorted by total, largest
    first. *)
Definition rows (c : Corr) : list ReportRow :=
  sort_by row_total true (report_row <$> durations_by_name c).

(** [l[:n]] *)
Definition slice_to {A} (l : list A) (n : Z) : list A :=
  if 0 <=? n then take (Z.to_nat n) l
  else take (Z.to_nat (Z.of_nat (length l) + n)) l.

(** What [main] prints: the three counters of the header and the rows of
    the table. *)
Record Report := mkReport {
  matched_intervals : Z;
  open_intervals_remaining : nat;
  unmatched_end_events : Z;
  table : list ReportRow
}.

Definition report (args : Args.t) (c : Corr) : Report :=
  {| matched_intervals := matched c;
     open_intervals_remaining := size (open_intervals c);
     unmatched_end_events := unmatched_ends c;
     table := slice_to (rows c) (Args.top args) |}.

Definition main (args : Args.t) (root : Element) : Report :=
  report args (corr (main_loop args root)).

(** ** The percentile estimator in binary64

    The same function with [float] as IEEE 754 binary64, for evaluating it
    on given inputs: the arithmetic is that of [SpecFloat] at precision 53,
    an [int] operand of a [float] operation is converted first, and the
    exceptions that the conversions and the list accesses can raise are
    results. *)

Module Binary64.

Definition prec : Z := 53.
Definition emax : Z := 1024.

Inductive result (A : Type) : Type :=
  | Ok (a : A)
  | Raise (exn : string).
Arguments Ok {A} a.
Arguments Raise {A} exn.

Definition bind {A B} (r : result A) (k : A → result B) : result B :=
  match r with
  | Ok a => k a
  | Raise exn => Raise exn
  end.

Notation "x <- r ;; k" := (bind r (λ x, k))
  (at level 100, r at next level, right associativity).

(** [float(z)], correctly rounded. *)
Definition float_of_int (z : Z) : result spec_float :=
  match binary_normalize prec emax z 0 false with
  | S754_infinity _ => Raise "OverflowError"
  | x => Ok x
  end.

(** The integer mantissa times [2 ^ e], rounded down. *)
Definition floor_scaled (n e : Z) : Z :=
  if 0 <=? e then n * 2 ^ e else n / 2 ^ (- e).

(** [math.floor(x)] and [math.ceil(x)] *)
Definition math_floor (x : spec_float) : result Z :=
  match x with
  | S754_zero _ => Ok 0
  | S754_finite s m e => Ok (floor_scaled (if s then Zneg m else Zpos m) e)
  | S754_infinity _ => Raise "OverflowError"
  | S754_nan => Raise "ValueError"
  end.

Definition math_ceil (x : spec_float) : result Z :=
  match x with
  | S754_zero _ => Ok 0
  | S754_finite s m e => Ok (- floor_scaled (if s then Zpos m else Zneg m) e)
  | S754_infinity _ => Raise "OverflowError"
  | S754_nan => Raise "ValueError"
  end.

(** The literal [1.0] *)
Definition lit_1 : spec_float := S754_finite false 4503599627370496 (-52).

Definition item (l : list Z) (i : Z) : result Z :=
  match getitem l i with
  | Some v => Ok v
  | None => Raise "IndexError"
  end.

Definition _pct (values : list Z) (p : spec_float) : result spec_float :=
  match values with
  | [] => Ok S754_nan
  | _ =>
      let values_sorted := sorted values in
      if bool_decide (length values_sorted = 1%nat) then
        v <- item values_sorted 0 ;; float_of_int v
      else
        n1 <- float_of_int (Z.of_nat (length values_sorted) - 1) ;;
        let idx := SFmul prec emax p n1 in
        lo <- math_floor idx ;;
        hi <- math_ceil idx ;;
        if bool_decide (lo = hi) then
          v <- item values_sorted lo ;; float_of_int v
        else
          flo <- float_of_int lo ;;
          let frac := SFsub prec emax idx flo in
          vlo <- item values_sorted lo ;;
          fvlo <- float_of_int vlo ;;
          let left := SFmul prec emax fvlo (SFsub prec emax lit_1 frac) in
          vhi <- item values_sorted hi ;;
          fvhi <- float_of_int vhi ;;
          Ok (SFadd prec emax left (SFmul prec emax fvhi frac))
  end.

(** The literals [0.5] and [0.95], and the least [float] above [1.0]. *)
Definition lit_0_5 : spec_float := S754_finite false 4503599627370496 (-53).
Definition lit_0_95 : spec_float := S754_finite false 8556839292003942 (-53).
Definition above_1 : spec_float := S754_finite false 4503599627370497 (-52).

End Binary64.

(** ** Vocabulary of the properties *)



(** A begin-candidate and an end-candidate: the kind label contains one of
    the two words and not the other. *)
Definition begins (e : Event) : bool :=
  is_begin (ev_kind e) && negb (is_end (ev_kind e)).

Definition ends (e : Event) : bool :=
  is_end (ev_kind e) && negb (is_begin (ev_kind e)).

(** The records of a stream that reach the correlator, in order, for a
    pass that comes to the stream with the tables [tb]. *)
Fixpoint records_of (args : Args.t) (tb : Tables) (stream : list Element)
  : list Event :=
  match stream with
  | [] => []
  | elem :: stream =>
      if bool_decide (tag elem = "row") then
        match accepted args (parse_row tb elem) with
        | Some e => e :: records_of args tb stream
        | None => records_of args tb stream
        end
      else records_of args (capture tb elem) stream
  end.

(** The number of samples held in all the lists. *)
Definition total_samples (d : list (string * list Z)) : nat :=
  sum_list ((λ kv, length kv.2) <$> d).

(** The samples held are never negative. *)
Definition samples_nonneg (c : Corr) : Prop :=
  Forall (λ kv : string * list Z, Forall (Z.le 0) kv.2) (durations_by_name c).


(** [matched] counts the samples held, and no list is empty. *)
Definition matched_is_total (c : Corr) : Prop :=
  matched c = Z.of_nat (total_samples (durations_by_name c)) ∧
  Forall (λ kv : string * list Z, kv.2 ≠ []) (durations_by_name c).



(** ** Nodes, records and streams of the examples *)

(** Four nodes, one for each way through the resolver. *)
Definition node_inline : Element :=
  mkElement "event-type" {[ "id" := "5"; "fmt" := "Begin" ]} (Some "ignored") [].
Definition node_ref : Element :=
  mkElement "signpost-name" {[ "ref" := "7" ]} (Some "Load") [].
Definition node_text : Element :=
  mkElement "category" ∅ (Some "  perf ") [].
Definition names_7 : gmap string string := {[ "7" := "Frame" ]}.

Definition no_tables : Tables := mkTables ∅ ∅ ∅ ∅ ∅.

(** A record node with both temporal sub-fields, and a temporal sub-field
    whose text is not an integer. *)
Definition row_two_times : Element :=
  mkElement "row" ∅ None
    [ mkElement "event-time" ∅ (Some "100") [];
      mkElement "sample-time" ∅ (Some "200") [] ].

(** Scenario 5 of the specification: Fetch begins at 1000, FetchDone ends
    at 1500 on the same key, with a record of another key in between. *)
Definition ev_fetch_begin : Event :=
  mkEvent 1000 "Begin" "Fetch" "t1" "0xE" None.
Definition ev_other_begin : Event :=
  mkEvent 1200 "Begin" "Load" "t2" "0xA" None.
Definition ev_fetch_end : Event :=
  mkEvent 1500 "End" "FetchDone" "t1" "0xE" None.
Definition corr0 : Corr := mkCorr ∅ [] 0 0.

(** Record nodes as the extractor reads them, for the examples: every
    field carries its value inline. *)
Definition field (tg fmt : string) : Element :=
  mkElement tg {[ "fmt" := fmt ]} None [].

Definition record (time kind nm thread id : string) : Element :=
  mkElement "row" ∅ None
    [ mkElement "event-time" ∅ (Some time) [];
      mkElement "thread" {[ "ref" := thread ]} None [];
      field "event-type" kind;
      field "signpost-name" nm;
      field "subsystem" "engine-sim";
      field "category" "perf";
      field "os-signpost-identifier" id ].

(** Scenario 1 (Load from 1000 to 5000) and scenario 6 (an end that is
    earlier than its begin) of the specification. *)
Definition stream_load : list Element :=
  [ record "1000" "Begin" "Load" "t1" "0xA";
    record "5000" "End" "Load" "t1" "0xA" ].
Definition ev_skew_begin : Event := mkEvent 2000 "Begin" "Load" "t1" "0xF" None.
Definition ev_skew_end : Event := mkEvent 1000 "End" "Load" "t1" "0xF" None.

(** Scenario 4 of the specification: Load begins at 100, Load2 begins at
    200 on the same key, Load2 ends at 300. *)
Definition ev_load_begin : Event := mkEvent 100 "Begin" "Load" "t1" "0xD" None.
Definition ev_load2_begin : Event := mkEvent 200 "Begin" "Load2" "t1" "0xD" None.
Definition ev_load2_end : Event := mkEvent 300 "End" "Load2" "t1" "0xD" None.

(** Scenario 2 of the specification: an end alone, after the definition
    of its kind label. *)
Definition def_end_kind : Element :=
  mkElement "event-type" {[ "id" := "9"; "fmt" := "Interval End" ]} None [].
Definition row_end_alone : Element :=
  mkElement "row" ∅ None
    [ mkElement "sample-time" ∅ (Some "700") [];
      mkElement "thread" {[ "id" := "t1" ]} None [];
      mkElement "event-type" {[ "ref" := "9" ]} None [];
      field "signpost-name" "Load";
      field "subsystem" "engine-sim";
      field "category" "perf";
      mkElement "os-signpost-identifier" ∅ (Some " 0xB ") [] ].


(** A document whose rows are those of [stream_load]. *)
Definition document_load : Element :=
  mkElement "trace-query-result" ∅ None
    [ mkElement "node" ∅ None stream_load ].

(** ** Vocabulary of the row extraction *)

(** A child with the tag [tg]. *)
Definition is_tag (tg : string) (c : Element) : bool := bool_decide (tag c = tg).

(** A child with the tag [tg] that resolves to a non-empty label in
    [table]. *)
Definition labelled (tg : string) (table : gmap string string) (c : Element)
  : bool :=
  is_tag tg c && Py.truthy (_resolve_fmt (Some c) table).

(** The label of the last child with the tag [tg] that resolves to a
    non-empty label. *)
Definition last_label (tg : string) (table : gmap string string)
    (cs : list Element) : option string :=
  last (List.filter (labelled tg table) cs) ≫= λ c, _resolve_fmt (Some c) table.

(** The four tags whose children are resolved against a table, with the
    table and the extracted field of each. *)
Definition label_table (tg : string) (tb : Tables) : option (gmap string string) :=
  if bool_decide (tg = "event-type") then Some (event_type_fmt tb)
  else if bool_decide (tg = "signpost-name") then Some (signpost_name_fmt tb)
  else if bool_decide (tg = "subsystem") then Some (subsystem_fmt tb)
  else if bool_decide (tg = "category") then Some (category_fmt tb)
  else None.

Definition label_field (tg : string) (r : Row) : option string :=
  if bool_decide (tg = "event-type") then event_kind r
  else if bool_decide (tg = "signpost-name") then name r
  else if bool_decide (tg = "subsystem") then subsystem r
  else if bool_decide (tg = "category") then category r
  else None.

(** A thread child that carries a non-empty identifier. *)
Definition thread_hit (c : Element) : bool :=
  is_tag "thread" c && Py.truthy (_resolve_id (Some c)).

(** The tags that the row extraction looks at. *)
Definition known_tag (c : Element) : bool :=
  bool_decide (tag c ∈ ["event-time"; "sample-time"; "event-type";
                        "signpost-name"; "subsystem"; "category"; "thread";
                        "os-signpost-identifier"]).

(** A child without its own sub-elements. *)
Definition shallow (c : Element) : Element :=
  {| tag := tag c; attrib := attrib c; text := text c; children := [] |}.

(** The tables with another thread table. *)
Definition with_thread_fmt (th : gmap string string) (tb : Tables) : Tables :=
  mkTables (event_type_fmt tb) (signpost_name_fmt tb) (subsystem_fmt tb)
           (category_fmt tb) th.

(** A record node with two thread children, two identifier children, a
    child of a tag that the extraction does not look at, and labels given
    inline and by reference. *)
Definition row_mixed : Element :=
  mkElement "row" ∅ None
    [ mkElement "thread" {[ "ref" := "t1" ]} None
        [ mkElement "tid" {[ "fmt" := "0x1" ]} (Some "1") [] ];
      mkElement "thread" {[ "ref" := ""; "id" := "t2" ]} None [];
      mkElement "thread" ∅ None [];
      mkElement "os-signpost-identifier" {[ "fmt" := "0xA" ]} (Some "10") [];
      mkElement "os-signpost-identifier" {[ "ref" := "4" ]} (Some " 11 ") [];
      mkElement "backtrace" {[ "fmt" := "..." ]} None [];
      field "event-type" "Begin";
      mkElement "event-type" {[ "ref" := "missing" ]} (Some "End") [];
      mkElement "signpost-name" {[ "ref" := "7" ]} None [] ].
Definition tables_7 : Tables := mkTables ∅ names_7 ∅ ∅ ∅.

(** The table that a definition node with the tag [tg] is captured in. *)
Definition def_table (tg : string) (tb : Tables) : option (gmap string string) :=
  if bool_decide (tg = "thread") then Some (thread_fmt tb) else label_table tg tb.

(** A definition of the name label 7 and a record that refers to it. *)
Definition def_name_7 : Element :=
  mkElement "signpost-name" {[ "id" := "7"; "fmt" := "Frame" ]} None [].
Definition row_ref_name : Element :=
  mkElement "row" ∅ None
    [ mkElement "event-time" ∅ (Some "10") [];
      mkElement "thread" {[ "ref" := "t1" ]} None [];
      field "event-type" "Begin";
      mkElement "signpost-name" {[ "ref" := "7" ]} (Some "Load") [];
      field "subsystem" "engine-sim";
      field "category" "perf";
      field "os-signpost-identifier" "0xA" ].

(** ** Vocabulary of the correlator *)

(** A record on the key [k]. *)
Definition on_key (k : string * string) (e : Event) : bool :=
  bool_decide (ev_key e = k).

(** The numbers of begin-candidates and of end-candidates in a list of
    records. *)
Definition count_begins (evs : list Event) : Z :=
  Z.of_nat (length (List.filter begins evs)).
Definition count_ends (evs : list Event) : Z :=
  Z.of_nat (length (List.filter ends evs)).

(** Two threads whose intervals interleave. *)
Definition evs_interleaved : list Event :=
  [ mkEvent 10 "Begin" "A" "t1" "1" None;
    mkEvent 20 "Begin" "B" "t2" "1" None;
    mkEvent 30 "End" "A" "t1" "1" None;
    mkEvent 35 "End" "A" "t1" "1" None;
    mkEvent 40 "End" "B" "t2" "1" None;
    mkEvent 50 "Begin" "C" "t2" "2" None ].

(** ** Vocabulary of the report *)

(** The order of [sorted(l, key=key, reverse=reverse)]. *)
Definition key_order {A} (key : A → Z) (reverse : bool) (a b : A) : Prop :=
  if reverse then key b ≤ key a else key a ≤ key b.

(** The elements of a list whose key is [k], in the order of the list. *)
Definition with_key {A} (key : A → Z) (k : Z) (l : list A) : list A :=
  List.filter (λ x, key x =? k) l.

(** A state with three names, two of them with the same total. *)
Definition corr_three_names : Corr :=
  mkCorr ∅ [("A", [5; 5]); ("B", [30]); ("C", [10])] 0 4.


(** The elements of a document in the order of their end tags. *)
Fixpoint postorder (elem : Element) : list Element :=
  flat_map postorder (children elem) ++ [elem].

(** A document with a definition inside a row. *)
Definition document_nested_def : Element :=
  mkElement "trace-query-result" ∅ None
    [ mkElement "row" ∅ None
        [ mkElement "event-time" ∅ (Some "10") [];
          mkElement "event-type" {[ "id" := "5"; "fmt" := "Begin" ]} None [];
          mkElement "thread" {[ "id" := "2"; "fmt" := "main" ]} None [] ];
      mkElement "row" ∅ None
        [ mkElement "event-type" {[ "ref" := "5" ]} None [] ] ].

(** A record and a correlator state without the formatted times. *)
Definition erase_fmt (e : Event) : Event :=
  mkEvent (ev_time e) (ev_kind e) (ev_name e) (ev_thread e) (ev_id e) None.

Definition forget_fmt (c : Corr) : Corr :=
  mkCorr ((λ v : Z * string * option string, (v.1.1, v.1.2, None))
            <$> open_intervals c)
         (durations_by_name c) (unmatched_ends c) (matched c).

(** * Properties *)

(** ** Python truth values *)

Lemma truthy_Some (o : option string) :
  Py.truthy o = true ↔ ∃ s, o = Some s ∧ s ≠ EmptyString.
Proof.
  destruct o as [[|a s]|]; simpl; split; try discriminate.
  - intros (s & [= <-] & Hs). by destruct Hs.
  - intros _. by exists (String a s).
  - intros (s' & [= <-] & _). done.
  - intros (s & ? & _). discriminate.
Qed.

Lemma truthy_false (o : option string) :
  Py.truthy o = false ↔ o = None ∨ o = Some EmptyString.
Proof.
  destruct o as [[|a s]|]; simpl; split; auto; try discriminate.
  all: intros [?|?]; discriminate.
Qed.

Lemma or_truthy_l (a b : option string) : Py.truthy a = true → Py.or a b = a.
Proof. unfold Py.or. by intros ->. Qed.

Lemma or_truthy_r (a b : option string) : Py.truthy a = false → Py.or a b = b.
Proof. unfold Py.or. by intros ->. Qed.

(** ** The label resolver *)

Lemma resolve_fmt_inline (e : Element) (by_id : gmap string string) :
  Py.truthy (attrib e !! "fmt") = true →
  _resolve_fmt (Some e) by_id = attrib e !! "fmt".
Proof. simpl. by intros ->. Qed.

Lemma resolve_fmt_ref (e : Element) (by_id : gmap string string) (r : string) :
  Py.truthy (attrib e !! "fmt") = false →
  attrib e !! "ref" = Some r → r ≠ EmptyString →
  _resolve_fmt (Some e) by_id = by_id !! r.
Proof.
  simpl. intros -> Hr Hne. rewrite Hr.
  destruct r; [done|]. reflexivity.
Qed.

Lemma resolve_fmt_text (e : Element) (by_id : gmap string string) :
  Py.truthy (attrib e !! "fmt") = false →
  Py.truthy (attrib e !! "ref") = false →
  _resolve_fmt (Some e) by_id =
    if bool_decide (text_stripped e = EmptyString) then None
    else Some (text_stripped e).
Proof.
  simpl. intros -> ->. by destruct (text_stripped e).
Qed.

(** C1 (as amended).  The inline resolver has three steps, and the first
    one that applies decides alone: (1) a non-empty inline label on the node
    is the result; (2) otherwise, when the node carries a non-empty
    reference id, the result is what the table stores under that id, absent
    when the id is not in the table, and the raw text is not consulted;
    (3) otherwise the result is the trimmed raw text, absent when it is
    empty.  So the result is absent exactly when there is no inline label
    and either the reference id misses the table or there is no reference
    id and the trimmed text is empty. *)
Theorem resolve_fmt_precedence (e : Element) (by_id : gmap string string) :
  (∀ f, attrib e !! "fmt" = Some f → f ≠ EmptyString →
        _resolve_fmt (Some e) by_id = Some f) ∧
  (Py.truthy (attrib e !! "fmt") = false →
   ∀ r, attrib e !! "ref" = Some r → r ≠ EmptyString →
        _resolve_fmt (Some e) by_id = by_id !! r) ∧
  (Py.truthy (attrib e !! "fmt") = false →
   Py.truthy (attrib e !! "ref") = false →
   text_stripped e ≠ EmptyString →
   _resolve_fmt (Some e) by_id = Some (text_stripped e)) ∧
  (_resolve_fmt (Some e) by_id = None ↔
   Py.truthy (attrib e !! "fmt") = false ∧
   ((∃ r, attrib e !! "ref" = Some r ∧ r ≠ EmptyString ∧ by_id !! r = None) ∨
    (Py.truthy (attrib e !! "ref") = false ∧ text_stripped e = EmptyString))).
Proof.
  split; [|split; [|split]].
  - intros f Hf Hne. rewrite resolve_fmt_inline; [done|].
    apply truthy_Some. eauto.
  - intros Hfmt r Hr Hne. by apply resolve_fmt_ref.
  - intros Hfmt Href Htxt. rewrite resolve_fmt_text by done.
    by rewrite bool_decide_eq_false_2.
  - destruct (Py.truthy (attrib e !! "fmt")) eqn:Hfmt.
    { rewrite resolve_fmt_inline by done.
      apply truthy_Some in Hfmt as (f & -> & _).
      split; [discriminate|]. intros [? _]. discriminate. }
    destruct (Py.truthy (attrib e !! "ref")) eqn:Href.
    + pose proof Href as Href'.
      apply truthy_Some in Href' as (r & Hr & Hne).
      rewrite (resolve_fmt_ref e by_id r) by done.
      split.
      * intros Hmiss. split; [done|]. left. eauto.
      * intros [_ [(r' & Hr' & _ & Hmiss)|[? _]]]; [|discriminate].
        congruence.
    + rewrite resolve_fmt_text by done.
      split.
      * case_bool_decide; [|discriminate]. intros _. split; [done|]. by right.
      * intros [_ [(r & Hr & Hne & _)|[_ Htxt]]].
        -- apply truthy_false in Href as [Href|Href]; congruence.
        -- by rewrite bool_decide_eq_true_2.
Qed.

Lemma resolve_fmt_precedence_witness :
  _resolve_fmt (Some node_inline) names_7 = Some "Begin" ∧
  _resolve_fmt (Some node_ref) names_7 = Some "Frame" ∧
  _resolve_fmt (Some node_text) names_7 = Some "perf" ∧
  _resolve_fmt (Some node_ref) ∅ = None.
Proof.
  split; [|split; [|split]].
  - apply (resolve_fmt_precedence node_inline names_7); [reflexivity|discriminate].
  - apply (proj1 (proj2 (resolve_fmt_precedence node_ref names_7)) eq_refl "7");
      [reflexivity|discriminate].
  - apply (proj1 (proj2 (proj2 (resolve_fmt_precedence node_text names_7))));
      [reflexivity|reflexivity|discriminate].
  - apply (proj2 (proj2 (proj2 (resolve_fmt_precedence node_ref ∅)))).
    split; [reflexivity|]. left. exists "7". repeat split; [discriminate].
Defined.

(** C1 (as stated) fails: a node whose reference id misses the table does
    not fall back to its raw text. *)
Lemma resolve_fmt_ref_miss_counterexample :
  ¬ (∀ (e : Element) (by_id : gmap string string) (r : string),
       Py.truthy (attrib e !! "fmt") = false →
       attrib e !! "ref" = Some r → by_id !! r = None →
       text_stripped e ≠ EmptyString →
       _resolve_fmt (Some e) by_id = Some (text_stripped e)).
Proof.
  intros H. specialize (H node_ref ∅ "7" eq_refl eq_refl eq_refl).
  discriminate H. discriminate.
Qed.

(** ** Row extraction: the timestamp *)






(** ** The correlator *)

(** Case analysis on the two substring tests of the kind label. *)
Local Ltac kind_cases c e :=
  unfold begins, ends, ev_key;
  destruct c as [op du un ma], e as [t ek nm th sid tf];
  unfold correlate;
  cbn [ev_kind ev_time ev_name ev_thread ev_id ev_fmt
       open_intervals durations_by_name unmatched_ends matched];
  destruct (is_begin ek), (is_end ek); cbn [negb orb andb];
  try discriminate; intros.

Lemma correlate_begins (c : Corr) (e : Event) :
  begins e = true →
  correlate c e =
    mkCorr (<[ev_key e := (ev_time e, ev_name e, ev_fmt e)]> (open_intervals c))
           (durations_by_name c) (unmatched_ends c) (matched c).
Proof. kind_cases c e. reflexivity. Qed.

Lemma correlate_ends_absent (c : Corr) (e : Event) :
  ends e = true → open_intervals c !! ev_key e = None →
  correlate c e =
    mkCorr (open_intervals c) (durations_by_name c)
           (unmatched_ends c + 1) (matched c).
Proof.
  kind_cases c e.
  match goal with H : _ !! _ = None |- _ => rewrite H; by rewrite delete_id end.
Qed.

Lemma correlate_ends_open (c : Corr) (e : Event)
    (t0 : Z) (n0 : string) (f0 : option string) :
  ends e = true → open_intervals c !! ev_key e = Some (t0, n0, f0) →
  correlate c e =
    if 0 <=? ev_time e - t0
    then mkCorr (delete (ev_key e) (open_intervals c))
                (dur_append (durations_by_name c) n0 (ev_time e - t0))
                (unmatched_ends c) (matched c + 1)
    else mkCorr (delete (ev_key e) (open_intervals c))
                (durations_by_name c) (unmatched_ends c) (matched c).
Proof.
  kind_cases c e.
  match goal with H : _ !! _ = Some _ |- _ => rewrite H end.
  destruct (decide (n0 = nm)) as [->|Hne].
  - by rewrite bool_decide_eq_false_2 by (intros Hne; by apply Hne).
  - by rewrite bool_decide_eq_true_2.
Qed.

Lemma correlate_dropped (c : Corr) (e : Event) :
  begins e = false → ends e = false → correlate c e = c.
Proof. kind_cases c e; reflexivity. Qed.

(** Key isolation: a record leaves the open interval of every other key
    as it is, and so does a record that is neither a begin- nor an
    end-candidate. *)
Lemma correlate_keeps_key (c : Corr) (e : Event) (k : string * string) :
  ev_key e ≠ k ∨ (begins e = false ∧ ends e = false) →
  open_intervals (correlate c e) !! k = open_intervals c !! k.
Proof.
  intros [Hk|[Hb He]]; [|by rewrite correlate_dropped].
  destruct (begins e) eqn:Hb.
  { rewrite correlate_begins by done. cbn. by rewrite lookup_insert_ne. }
  destruct (ends e) eqn:He; [|by rewrite correlate_dropped].
  destruct (open_intervals c !! ev_key e) as [[[t0 n0] f0]|] eqn:Ho.
  - rewrite (correlate_ends_open c e t0 n0 f0) by done.
    destruct (0 <=? _); cbn; by rewrite lookup_delete_ne.
  - by rewrite correlate_ends_absent.
Qed.

Lemma fold_correlate_keeps_key (mid : list Event) (c : Corr) (k : string * string) :
  Forall (λ m, ev_key m ≠ k ∨ (begins m = false ∧ ends m = false)) mid →
  open_intervals (fold_left correlate mid c) !! k = open_intervals c !! k.
Proof.
  intros H. revert c. induction H as [|m mid Hm _ IH]; intros c; [done|].
  cbn. rewrite IH. by apply correlate_keeps_key.
Qed.

Lemma samples_of_dur_append (d : list (string * list Z)) (nm nm' : string) (dt : Z) :
  samples_of (dur_append d nm dt) nm' =
    if bool_decide (nm = nm') then samples_of d nm' ++ [dt] else samples_of d nm'.
Proof.
  induction d as [|[k l] d IH]; cbn.
  - by case_bool_decide.
  - destruct (decide (k = nm)) as [->|Hk].
    + rewrite bool_decide_eq_true_2 by done. cbn.
      case_bool_decide; [done|]. done.
    + rewrite (bool_decide_eq_false_2 (k = nm)) by done. cbn.
      rewrite IH. repeat case_bool_decide; congruence.
Qed.

(** C3.  Take a begin-candidate [b], then records that do not act on its
    key, then an end-candidate [e] on the same key, with a difference of
    times that is not negative, so that the interval closes with a recorded
    sample.  The sample is appended to the list of the begin record's name;
    when the end record carries another name, the list of that name is left
    as it was. *)
Theorem sample_attributed_to_begin
    (c : Corr) (b e : Event) (mid : list Event) :
  begins b = true → ends e = true → ev_key e = ev_key b →
  Forall (λ m, ev_key m ≠ ev_key b ∨ (begins m = false ∧ ends m = false)) mid →
  ev_time b ≤ ev_time e →
  let c1 := fold_left correlate mid (correlate c b) in
  let c2 := correlate c1 e in
  durations_by_name c2 =
    dur_append (durations_by_name c1) (ev_name b) (ev_time e - ev_time b) ∧
  samples_of (durations_by_name c2) (ev_name b) =
    samples_of (durations_by_name c1) (ev_name b) ++ [ev_time e - ev_time b] ∧
  matched c2 = matched c1 + 1 ∧
  (ev_name e ≠ ev_name b →
   samples_of (durations_by_name c2) (ev_name e) =
     samples_of (durations_by_name c1) (ev_name e)).
Proof.
  intros Hb He Hkey Hmid Htime c1 c2.
  assert (open_intervals c1 !! ev_key e = Some (ev_time b, ev_name b, ev_fmt b))
    as Hopen.
  { unfold c1. rewrite Hkey, fold_correlate_keeps_key by done.
    rewrite correlate_begins by done. cbn. by rewrite lookup_insert_eq. }
  unfold c2. rewrite (correlate_ends_open c1 e _ _ _ He Hopen).
  rewrite (proj2 (Z.leb_le 0 _)) by lia. cbn.
  repeat split.
  - rewrite samples_of_dur_append. by rewrite bool_decide_eq_true_2.
  - intros Hne. rewrite samples_of_dur_append.
    by rewrite bool_decide_eq_false_2.
Qed.

Lemma sample_attributed_to_begin_witness :
  let c2 := fold_left correlate
              [ev_fetch_begin; ev_other_begin; ev_fetch_end] corr0 in
  durations_by_name c2 = [("Fetch", [500])] ∧
  samples_of (durations_by_name c2) "FetchDone" = [].
Proof.
  pose proof (sample_attributed_to_begin corr0 ev_fetch_begin ev_fetch_end
                [ev_other_begin] eq_refl eq_refl eq_refl) as H.
  destruct H as (H1 & _ & _ & H4).
  - constructor; [left; discriminate|constructor].
  - cbn. lia.
  - split; [exact H1|]. apply H4. discriminate.
Defined.

(** ** Invariants of the pass *)

Lemma loop_body_not_row (args : Args.t) (st : State) (elem : Element) :
  tag elem ≠ "row" →
  loop_body args st elem = mkState (capture (tabs st) elem) (corr st).
Proof. intros H. unfold loop_body. by rewrite bool_decide_eq_true_2. Qed.

Lemma capture_row (tb : Tables) (elem : Element) :
  tag elem = "row" → capture tb elem = tb.
Proof. intros H. unfold capture. destruct tb. by rewrite H. Qed.

Lemma loop_body_row (args : Args.t) (st : State) (elem : Element) :
  tag elem = "row" →
  loop_body args st elem =
    match accepted args (parse_row (tabs st) elem) with
    | None => st
    | Some e => mkState (tabs st) (correlate (corr st) e)
    end.
Proof.
  intros H. unfold loop_body. rewrite capture_row by done.
  rewrite bool_decide_eq_false_2 by (intros Hne; by apply Hne).
  unfold loop_row. cbn [tabs corr]. destruct st as [tb c]. cbn.
  by destruct (accepted _ _).
Qed.

(** What one iteration does to the correlator state: nothing, or the
    correlation of one accepted record. *)
Lemma corr_loop_body (args : Args.t) (st : State) (elem : Element) :
  corr (loop_body args st elem) = corr st ∨
  ∃ e, corr (loop_body args st elem) = correlate (corr st) e.
Proof.
  destruct (decide (tag elem = "row")) as [Hrow|Hrow].
  - rewrite loop_body_row by done.
    destruct (accepted _ _) as [e|]; [right; by exists e|by left].
  - rewrite loop_body_not_row by done. by left.
Qed.

(** The correlator state after a pass is the correlation, in order, of the
    records of the stream that pass the filters. *)
Lemma corr_fold_loop_body (args : Args.t) (stream : list Element) (st : State) :
  corr (fold_left (loop_body args) stream st) =
    fold_left correlate (records_of args (tabs st) stream) (corr st).
Proof.
  revert st. induction stream as [|elem stream IH]; intros st; [done|].
  cbn [fold_left records_of]. rewrite IH. case_bool_decide as Hrow.
  - rewrite loop_body_row by done.
    by destruct (accepted args (parse_row (tabs st) elem)).
  - by rewrite loop_body_not_row.
Qed.

Lemma corr_run (args : Args.t) (stream : list Element) :
  corr (run args stream) =
    fold_left correlate (records_of args (tabs init) stream) (corr init).
Proof. apply corr_fold_loop_body. Qed.

(** A property of the correlator state that holds initially and is kept
    by the correlation of a record holds after every pass, hence at every
    point of a pass. *)
Lemma run_invariant (P : Corr → Prop) :
  P (corr init) → (∀ c e, P c → P (correlate c e)) →
  ∀ args stream, P (corr (run args stream)).
Proof.
  intros Hinit Hstep args stream. unfold run.
  induction stream as [|elem stream IH] using rev_ind; [done|].
  rewrite fold_left_app. cbn.
  destruct (corr_loop_body args (fold_left (loop_body args) stream init) elem)
    as [->|[e ->]]; auto.
Qed.

(** Every case of the correlator, for a proof by cases. *)
Lemma correlate_cases (c : Corr) (e : Event) :
  correlate c e = c ∨
  correlate c e =
    mkCorr (<[ev_key e := (ev_time e, ev_name e, ev_fmt e)]> (open_intervals c))
           (durations_by_name c) (unmatched_ends c) (matched c) ∨
  correlate c e =
    mkCorr (open_intervals c) (durations_by_name c)
           (unmatched_ends c + 1) (matched c) ∨
  correlate c e =
    mkCorr (delete (ev_key e) (open_intervals c)) (durations_by_name c)
           (unmatched_ends c) (matched c) ∨
  ∃ nm dt, 0 ≤ dt ∧
    correlate c e =
      mkCorr (delete (ev_key e) (open_intervals c))
             (dur_append (durations_by_name c) nm dt)
             (unmatched_ends c) (matched c + 1).
Proof.
  destruct (begins e) eqn:Hb.
  { right; left. by apply correlate_begins. }
  destruct (ends e) eqn:He; [|left; by apply correlate_dropped].
  destruct (open_intervals c !! ev_key e) as [[[t0 n0] f0]|] eqn:Ho.
  - rewrite (correlate_ends_open c e t0 n0 f0) by done.
    destruct (0 <=? ev_time e - t0) eqn:Hdt.
    + do 4 right. exists n0, (ev_time e - t0). split; [lia|done].
    + do 3 right. by left.
  - right; right; left. by apply correlate_ends_absent.
Qed.

Lemma total_samples_dur_append (d : list (string * list Z)) (nm : string) (dt : Z) :
  total_samples (dur_append d nm dt) = S (total_samples d).
Proof.
  unfold total_samples. induction d as [|[k l] d IH]; cbn; [done|].
  case_bool_decide; cbn.
  - rewrite length_app. cbn. lia.
  - rewrite IH. lia.
Qed.

Lemma Forall_dur_append (P : list Z → Prop) (d : list (string * list Z))
    (nm : string) (dt : Z) :
  P [dt] → (∀ l, P l → P (l ++ [dt])) →
  Forall (λ kv, P kv.2) d → Forall (λ kv, P kv.2) (dur_append d nm dt).
Proof.
  intros H1 Happ. induction 1 as [|[k l] d Hl Hd IH]; cbn.
  - by repeat constructor.
  - case_bool_decide; constructor; cbn; auto.
Qed.

Lemma samples_nonneg_correlate (c : Corr) (e : Event) :
  samples_nonneg c → samples_nonneg (correlate c e).
Proof.
  unfold samples_nonneg. intros H.
  destruct (correlate_cases c e) as [->|[->|[->|[->|(nm & dt & Hdt & ->)]]]];
    cbn; try done.
  apply (Forall_dur_append (Forall (Z.le 0))); [by repeat constructor| |done].
  intros l Hl. apply Forall_app. split; [done|by repeat constructor].
Qed.

(** C4.  Every sample held in any list is nonnegative, at every point of
    every pass; and when an end-candidate meets an open interval of its key
    with a negative difference of times, nothing is appended and neither
    counter changes, while the open entry of the key is removed. *)
Theorem samples_nonnegative :
  (∀ (args : Args.t) (stream : list Element),
     samples_nonneg (corr (run args stream))) ∧
  (∀ (c : Corr) (e : Event) (t0 : Z) (n0 : string) (f0 : option string),
     ends e = true →
     open_intervals c !! ev_key e = Some (t0, n0, f0) →
     ev_time e - t0 < 0 →
     durations_by_name (correlate c e) = durations_by_name c ∧
     matched (correlate c e) = matched c ∧
     unmatched_ends (correlate c e) = unmatched_ends c ∧
     open_intervals (correlate c e) = delete (ev_key e) (open_intervals c) ∧
     open_intervals (correlate c e) !! ev_key e = None).
Proof.
  split.
  - apply (run_invariant samples_nonneg).
    + constructor.
    + apply samples_nonneg_correlate.
  - intros c e t0 n0 f0 He Ho Hdt.
    rewrite (correlate_ends_open c e t0 n0 f0) by done.
    rewrite (proj2 (Z.leb_gt 0 _)) by lia. cbn.
    repeat split. apply lookup_delete_eq.
Qed.

Lemma samples_nonnegative_witness :
  durations_by_name (corr (run Args.default stream_load)) = [("Load", [4000])] ∧
  samples_nonneg (corr (run Args.default stream_load)) ∧
  (let c := correlate corr0 ev_skew_begin in
   durations_by_name (correlate c ev_skew_end) = [] ∧
   matched (correlate c ev_skew_end) = 0 ∧
   unmatched_ends (correlate c ev_skew_end) = 0 ∧
   open_intervals (correlate c ev_skew_end) !! ("t1", "0xF") = None).
Proof.
  split; [reflexivity|]. split.
  - exact (proj1 samples_nonnegative Args.default stream_load).
  - destruct (proj2 samples_nonnegative (correlate corr0 ev_skew_begin)
                ev_skew_end 2000 "Load" None) as (H1 & H2 & H3 & _ & H5).
    + reflexivity.
    + reflexivity.
    + cbn. lia.
    + exact (conj H1 (conj H2 (conj H3 H5))).
Defined.

(** C5.  A begin-candidate for a key that is already open replaces the
    stored start time and name by its own: the key still has one open
    interval, no sample is recorded and no counter moves.  An end-candidate
    that follows on the same key (records that do not act on the key may
    come in between) is matched against the second begin: it removes the
    entry, and when its time is not earlier than that of the second begin
    it records the difference to that time under that begin's name. *)
Theorem begin_replaces_open
    (c : Corr) (b : Event) (t0 : Z) (n0 : string) (f0 : option string) :
  begins b = true →
  open_intervals c !! ev_key b = Some (t0, n0, f0) →
  let c1 := correlate c b in
  open_intervals c1 =
    <[ev_key b := (ev_time b, ev_name b, ev_fmt b)]> (open_intervals c) ∧
  open_intervals c1 !! ev_key b = Some (ev_time b, ev_name b, ev_fmt b) ∧
  size (open_intervals c1) = size (open_intervals c) ∧
  durations_by_name c1 = durations_by_name c ∧
  matched c1 = matched c ∧
  unmatched_ends c1 = unmatched_ends c ∧
  (∀ (mid : list Event) (e : Event),
     Forall (λ m, ev_key m ≠ ev_key b ∨ (begins m = false ∧ ends m = false)) mid →
     ends e = true → ev_key e = ev_key b → ev_time b ≤ ev_time e →
     let c2 := fold_left correlate mid c1 in
     let c3 := correlate c2 e in
     durations_by_name c3 =
       dur_append (durations_by_name c2) (ev_name b) (ev_time e - ev_time b) ∧
     matched c3 = matched c2 + 1 ∧
     unmatched_ends c3 = unmatched_ends c2 ∧
     open_intervals c3 !! ev_key b = None).
Proof.
  intros Hb Ho c1. unfold c1. rewrite correlate_begins by done. cbn.
  split; [done|]. split; [apply lookup_insert_eq|].
  split; [by eapply map_size_insert_Some|].
  do 3 (split; [done|]).
  intros mid e Hmid He Hkey Htime.
  match goal with
  | |- context [fold_left correlate mid ?x] =>
      set (c2 := fold_left correlate mid x)
  end.
  assert (open_intervals c2 !! ev_key e = Some (ev_time b, ev_name b, ev_fmt b))
    as Hopen.
  { unfold c2. rewrite Hkey, fold_correlate_keeps_key by done.
    cbn. apply lookup_insert_eq. }
  rewrite (correlate_ends_open c2 e _ _ _ He Hopen).
  rewrite (proj2 (Z.leb_le 0 _)) by lia. cbn.
  repeat split. rewrite Hkey. apply lookup_delete_eq.
Qed.

Lemma begin_replaces_open_witness :
  let c := correlate corr0 ev_load_begin in
  let c1 := correlate c ev_load2_begin in
  let c3 := correlate c1 ev_load2_end in
  open_intervals c1 !! ("t1", "0xD") = Some (200, "Load2", None) ∧
  size (open_intervals c1) = 1%nat ∧
  durations_by_name c1 = [] ∧ matched c1 = 0 ∧ unmatched_ends c1 = 0 ∧
  durations_by_name c3 = [("Load2", [100])] ∧ matched c3 = 1 ∧
  unmatched_ends c3 = 0 ∧ open_intervals c3 !! ("t1", "0xD") = None.
Proof.
  intros c c1 c3.
  destruct (begin_replaces_open c ev_load2_begin 100 "Load" None
              eq_refl eq_refl) as (_ & H2 & H3 & H4 & H5 & H6 & H7).
  destruct (H7 [] ev_load2_end) as (H8 & H9 & H10 & H11).
  - constructor.
  - reflexivity.
  - reflexivity.
  - cbn. lia.
  - exact (conj H2 (conj H3 (conj H4 (conj H5 (conj H6
             (conj H8 (conj H9 (conj H10 H11)))))))).
Defined.




(** ** The filter *)







(** ** Aggregation *)

Lemma insert_by_Permutation {A} (key : A → Z) (reverse : bool) (x : A) (l : list A) :
  insert_by key reverse x l ≡ₚ x :: l.
Proof.
  induction l as [|y l IH]; cbn; [done|].
  destruct (if reverse then _ else _); [done|].
  rewrite IH. apply Permutation_swap.
Qed.

Lemma sort_by_Permutation {A} (key : A → Z) (reverse : bool) (l : list A) :
  sort_by key reverse l ≡ₚ l.
Proof.
  unfold sort_by. induction l as [|x l IH]; cbn; [done|].
  by rewrite insert_by_Permutation, IH.
Qed.

Lemma matched_is_total_correlate (c : Corr) (e : Event) :
  matched_is_total c → matched_is_total (correlate c e).
Proof.
  unfold matched_is_total. intros [Hm Hne].
  destruct (correlate_cases c e) as [->|[->|[->|[->|(nm & dt & Hdt & ->)]]]];
    cbn [matched durations_by_name]; try done.
  split.
  - rewrite total_samples_dur_append. lia.
  - apply (Forall_dur_append (λ l, l ≠ [])); [done| |done].
    intros l _. by destruct l.
Qed.

Lemma rows_counts (c : Corr) :
  sum_list (row_count <$> rows c) = total_samples (durations_by_name c).
Proof.
  unfold rows, total_samples. rewrite sort_by_Permutation.
  rewrite <- list_fmap_compose. f_equal. apply list_fmap_ext.
  by intros _ [k l] _.
Qed.

(** The table printed holds the first [top] rows: all of them when there
    are no more than [top]. *)
Lemma table_prefix (args : Args.t) (c : Corr) :
  table (report args c) `prefix_of` rows c.
Proof.
  unfold report, slice_to. cbn [table].
  destruct (0 <=? Args.top args); apply prefix_take.
Qed.

Lemma table_all_rows (args : Args.t) (c : Corr) :
  Z.of_nat (length (rows c)) ≤ Args.top args →
  table (report args c) = rows c.
Proof.
  intros Htop. unfold report, slice_to. cbn [table].
  rewrite (proj2 (Z.leb_le 0 _)) by lia. apply take_ge. lia.
Qed.

(** C9.  At every point of the pass, and so at its end, [matched] is the
    number of samples held in all the lists together.  So every row built
    for the report has a positive count, and the counts of the rows add up
    to the value reported as [matched_intervals]. *)
Theorem matched_counts_samples (args : Args.t) (stream : list Element) :
  (∀ k : nat,
     let c := corr (run args (take k stream)) in
     matched c = Z.of_nat (total_samples (durations_by_name c))) ∧
  (let c := corr (run args stream) in
   matched c = Z.of_nat (total_samples (durations_by_name c)) ∧
   Forall (λ r, (0 < row_count r)%nat) (rows c) ∧
   Z.of_nat (sum_list (row_count <$> rows c)) =
     matched_intervals (report args c)).
Proof.
  assert (∀ s, matched_is_total (corr (run args s))) as Hinv.
  { intros s. apply (run_invariant matched_is_total).
    - split; [done|constructor].
    - apply matched_is_total_correlate. }
  split; [intros k; apply Hinv|].
  destruct (Hinv stream) as [Hm Hne]. split; [done|]. split.
  - unfold rows. rewrite sort_by_Permutation.
    apply Forall_fmap. eapply Forall_impl; [exact Hne|].
    intros [nm l] Hl. cbn in *. destruct l; [done|cbn; lia].
  - rewrite rows_counts. cbn. by rewrite Hm.
Qed.

Example stream_load_counts :
  let c := corr (run Args.default stream_load) in
  matched c = 1 ∧ row_count <$> rows c = [1%nat] ∧
  matched_intervals (report Args.default c) = 1.
Proof. repeat split; reflexivity. Qed.

(** ** The percentile estimator *)

Lemma insert_by_Sorted (x : Z) (l : list Z) :
  Sorted Z.le l → Sorted Z.le (insert_by id false x l).
Proof.
  induction 1 as [|y l Hl IH Hy]; cbn; [by repeat constructor|].
  unfold id in *. destruct (x <=? y) eqn:Hxy.
  - constructor; [by constructor|]. constructor. lia.
  - constructor; [done|].
    destruct Hy as [|z l Hz]; cbn.
    + constructor. lia.
    + destruct (x <=? z); constructor; lia.
Qed.

(** [sorted] sorts ascending. *)
Lemma sorted_Sorted (values : list Z) : Sorted Z.le (sorted values).
Proof.
  unfold sorted, sort_by. induction values as [|x l IH]; cbn; [constructor|].
  by apply insert_by_Sorted.
Qed.












(** ** The stream of a document *)

(** Induction on an element with the property known for its
    sub-elements. *)
Lemma Element_children_ind (P : Element → Prop) :
  (∀ tg at_ tx cs, Forall P cs → P (mkElement tg at_ tx cs)) →
  ∀ elem, P elem.
Proof.
  intros H. fix ind 1. intros [tg at_ tx cs]. apply H.
  induction cs as [|c cs IH]; constructor; [apply ind|apply IH].
Qed.

(** With the order of the iterations and the clearing spelled out by
    [visit], the loop of [main] is the pass over the stream [events]. *)
Lemma visit_events (args : Args.t) (elem : Element) (st : State) :
  visit args st elem =
    (fold_left (loop_body args) (events elem) st, clear elem).
Proof.
  revert st. induction elem as [tg at_ tx cs IH] using Element_children_ind.
  intros st. cbn [visit events children].
  match goal with
  | |- (let '(st1, cs1) := ?go st cs in _) = _ =>
      assert (∀ st, go st cs =
                (fold_left (loop_body args) (flat_map events cs) st,
                 clear <$> cs)) as Hgo
  end.
  { clear st. induction IH as [|c cs Hc _ IHcs]; intros st; [done|].
    rewrite Hc, IHcs. cbn [flat_map fmap list_fmap].
    by rewrite fold_left_app. }
  rewrite Hgo, fold_left_app. reflexivity.
Qed.

Lemma main_loop_run (args : Args.t) (root : Element) :
  main_loop args root = run args (events root).
Proof. unfold main_loop, run. by rewrite visit_events. Qed.

(** A cleared sub-element contributes nothing to the extraction. *)
Lemma row_child_clear (tb : Tables) (c : Element) :
  row_child tb row_init (clear c) = row_init.
Proof.
  unfold row_child, row_init, clear. cbn [tag attrib text].
  repeat (case_bool_decide; cbn [orb]; [reflexivity|]). reflexivity.
Qed.

Lemma parse_row_seen (tb : Tables) (elem : Element) :
  parse_row tb (seen elem) = row_init.
Proof.
  unfold parse_row, seen. cbn [children].
  induction (children elem) as [|c cs IH]; [done|].
  cbn [fmap list_fmap fold_left]. by rewrite row_child_clear.
Qed.

(** Since [elem.clear()] is also called for the sub-elements of a row
    (lines 112-114), which are handed out before the row, the iteration for
    a row of a document finds its fields empty and the row stops at the
    first filter: over the stream of a document the correlator state stays
    the initial one.  The properties of the correlator above are stated for
    the loop body on any element, whichever stream hands it out. *)
Lemma main_loop_corr (args : Args.t) (root : Element) :
  corr (main_loop args root) = corr init.
Proof.
  rewrite main_loop_run. unfold run. generalize init as st.
  induction root as [tg at_ tx cs IH] using Element_children_ind.
  intros st. cbn [events children]. rewrite fold_left_app.
  assert (∀ st, corr (fold_left (loop_body args) (flat_map events cs) st)
                = corr st) as Hcs.
  { clear st. induction IH as [|c cs Hc _ IHcs]; intros st; [done|].
    cbn [flat_map]. by rewrite fold_left_app, IHcs, Hc. }
  cbn [fold_left]. destruct (corr_loop_body args
    (fold_left (loop_body args) (flat_map events cs) st)
    (seen (mkElement tg at_ tx cs))) as [->|[e He]]; [apply Hcs|].
  destruct (decide (tg = "row")) as [->|Hrow].
  - rewrite loop_body_row, parse_row_seen by done. apply Hcs.
  - rewrite loop_body_not_row by done. apply Hcs.
Qed.

(** On the document whose two rows are a begin and an end of Load, every
    counter of the report is zero and the table is empty. *)
Example main_document_load :
  main Args.default document_load =
    {| matched_intervals := 0; open_intervals_remaining := 0;
       unmatched_end_events := 0; table := [] |}.
Proof. reflexivity. Qed.

(** ** The report on the streams of the examples *)

Example report_stream_load :
  let r := report Args.default (corr (run Args.default stream_load)) in
  matched_intervals r = 1 ∧ open_intervals_remaining r = 0%nat ∧
  unmatched_end_events r = 0 ∧
  (λ row, (row_interval_name row, row_count row, row_total row,
           row_p50 row, row_max row)) <$> table r =
    [("Load", 1%nat, 4000, Float (inject_Z 4000), 4000)].
Proof. repeat split; reflexivity. Qed.

Example report_begin_alone :
  let r := report Args.default
             (corr (run Args.default [record "10" "Begin" "Load" "t1" "0xC"])) in
  matched_intervals r = 0 ∧ open_intervals_remaining r = 1%nat ∧
  unmatched_end_events r = 0 ∧ table r = [].
Proof. repeat split; reflexivity. Qed.

(** Scenarios 4, 5 and 6 of the specification as streams of record
    nodes. *)
Example report_double_begin :
  let c := corr (run Args.default
                   [ record "100" "Begin" "Load" "t1" "0xD";
                     record "200" "Begin" "Load2" "t1" "0xD";
                     record "300" "End" "Load2" "t1" "0xD" ]) in
  matched c = 1 ∧ durations_by_name c = [("Load2", [100])] ∧
  unmatched_ends c = 0 ∧ open_intervals c = ∅.
Proof. repeat split; reflexivity. Qed.

Example report_end_name_differs :
  let c := corr (run Args.default
                   [ record "1000" "Begin" "Fetch" "t1" "0xE";
                     record "1500" "End" "FetchDone" "t1" "0xE" ]) in
  matched c = 1 ∧ durations_by_name c = [("Fetch", [500])].
Proof. repeat split; reflexivity. Qed.

Example report_clock_skew :
  let c := corr (run Args.default
                   [ record "2000" "Begin" "Load" "t1" "0xF";
                     record "1000" "End" "Load" "t1" "0xF" ]) in
  matched c = 0 ∧ unmatched_ends c = 0 ∧ durations_by_name c = [] ∧
  open_intervals c = ∅.
Proof. repeat split; reflexivity. Qed.

Example binary64_floor_ceil :
  Binary64.math_floor Binary64.lit_0_95 = Binary64.Ok 0 ∧
  Binary64.math_ceil Binary64.lit_0_95 = Binary64.Ok 1 ∧
  Binary64.math_floor (SFopp Binary64.lit_0_5) = Binary64.Ok (-1) ∧
  Binary64.math_ceil (SFopp Binary64.lit_0_5) = Binary64.Ok 0.
Proof. repeat split; reflexivity. Qed.

Example binary64_pct_examples :
  Binary64._pct [4000] Binary64.lit_0_95 = Binary64.float_of_int 4000 ∧
  Binary64._pct [10; 20; 30; 40] Binary64.lit_0_95 =
    Binary64.Ok (S754_finite false 5418393301680128 (-47)) ∧
  Binary64._pct [10; 20; 30; 40] Binary64.above_1 = Binary64.Raise "IndexError".
Proof. repeat split; vm_compute; reflexivity. Qed.

(** * Further properties *)

(** ** Row extraction: the other fields *)

(** A field that every child either sets to a value of its own or leaves
    alone holds the value of the last child that sets it. *)
Lemma fold_last_wins {A} (step : Row → Element → Row) (get : Row → A)
    (hit : Element → bool) (val : Element → A) :
  (∀ r c, get (step r c) = if hit c then val c else get r) →
  ∀ cs r, get (fold_left step cs r) =
    match last (List.filter hit cs) with
    | Some c => val c
    | None => get r
    end.
Proof.
  intros Hstep cs. induction cs as [|c cs IH] using rev_ind; intros r; [done|].
  rewrite fold_left_app, List.filter_app. cbn [fold_left List.filter].
  rewrite Hstep. destruct (hit c).
  - by rewrite last_snoc.
  - rewrite app_nil_r. apply IH.
Qed.

(** Case analysis on the tag of a child in [row_child]. *)
Local Ltac tag_cases r :=
  destruct r as [t tf ek nm ss ca th sid];
  unfold row_child, labelled, thread_hit, is_tag;
  cbn [time_ns time_fmt event_kind name subsystem category thread_id signpost_id];
  repeat (case_bool_decide; cbn [orb andb]);
  try (exfalso; congruence);
  repeat match goal with
         | |- context [Py.truthy ?x] => destruct (Py.truthy x)
         end;
  try reflexivity.

Lemma row_child_event_kind (tb : Tables) (r : Row) (c : Element) :
  event_kind (row_child tb r c) =
    if labelled "event-type" (event_type_fmt tb) c
    then _resolve_fmt (Some c) (event_type_fmt tb) else event_kind r.
Proof. tag_cases r. Qed.

Lemma row_child_name (tb : Tables) (r : Row) (c : Element) :
  name (row_child tb r c) =
    if labelled "signpost-name" (signpost_name_fmt tb) c
    then _resolve_fmt (Some c) (signpost_name_fmt tb) else name r.
Proof. tag_cases r. Qed.

Lemma row_child_subsystem (tb : Tables) (r : Row) (c : Element) :
  subsystem (row_child tb r c) =
    if labelled "subsystem" (subsystem_fmt tb) c
    then _resolve_fmt (Some c) (subsystem_fmt tb) else subsystem r.
Proof. tag_cases r. Qed.

Lemma row_child_category (tb : Tables) (r : Row) (c : Element) :
  category (row_child tb r c) =
    if labelled "category" (category_fmt tb) c
    then _resolve_fmt (Some c) (category_fmt tb) else category r.
Proof. tag_cases r. Qed.

Lemma row_child_thread_id (tb : Tables) (r : Row) (c : Element) :
  thread_id (row_child tb r c) =
    if thread_hit c then _resolve_id (Some c) else thread_id r.
Proof.
  destruct r as [t tf ek nm ss ca th sid].
  unfold row_child, thread_hit, is_tag.
  repeat (case_bool_decide; cbn [orb andb]); try (exfalso; congruence);
    unfold Py.or;
    repeat match goal with
           | |- context [Py.truthy ?x] => destruct (Py.truthy x)
           end;
    reflexivity.
Qed.

Lemma row_child_signpost_id (tb : Tables) (r : Row) (c : Element) :
  signpost_id (row_child tb r c) =
    if is_tag "os-signpost-identifier" c
    then Py.or (Py.or (attrib c !! "fmt") (Some (text_stripped c)))
               (attrib c !! "ref")
    else signpost_id r.
Proof. tag_cases r. Qed.

Lemma row_child_unknown (tb : Tables) (r : Row) (c : Element) :
  known_tag c = false → row_child tb r c = r.
Proof.
  unfold known_tag. intros Hc. apply bool_decide_eq_false in Hc.
  destruct r as [t tf ek nm ss ca th sid]. unfold row_child.
  repeat (case_bool_decide; cbn [orb];
          [exfalso; apply Hc;
           match goal with H : tag c = _ |- _ => rewrite H end;
           set_solver|]).
  reflexivity.
Qed.

Lemma row_child_shallow (tb : Tables) (r : Row) (c : Element) :
  row_child tb r (shallow c) = row_child tb r c.
Proof. reflexivity. Qed.


Lemma last_filter_hit {A} (hit : A → bool) (l : list A) (x : A) :
  last (List.filter hit l) = Some x → hit x = true.
Proof.
  induction l as [|y l IH] using rev_ind; [done|].
  rewrite List.filter_app. cbn [List.filter]. destruct (hit y) eqn:Hy.
  - rewrite last_snoc. by intros [= <-].
  - by rewrite app_nil_r.
Qed.

Lemma parse_row_label (tb : Tables) (elem : Element) (tg : string)
    (table : gmap string string) :
  label_table tg tb = Some table →
  label_field tg (parse_row tb elem) = last_label tg table (children elem).
Proof.
  unfold label_table, label_field, last_label, parse_row.
  repeat case_bool_decide; try discriminate; intros [= <-]; subst tg.
  - rewrite (fold_last_wins _ event_kind _ _ (row_child_event_kind tb)).
    by destruct (last _).
  - rewrite (fold_last_wins _ name _ _ (row_child_name tb)).
    by destruct (last _).
  - rewrite (fold_last_wins _ subsystem _ _ (row_child_subsystem tb)).
    by destruct (last _).
  - rewrite (fold_last_wins _ category _ _ (row_child_category tb)).
    by destruct (last _).
Qed.

Lemma last_label_truthy (tg : string) (table : gmap string string)
    (cs : list Element) :
  last_label tg table cs = None ∨ Py.truthy (last_label tg table cs) = true.
Proof.
  unfold last_label. destruct (last _) as [c|] eqn:Hlast; [|by left].
  right. apply last_filter_hit in Hlast. unfold labelled in Hlast.
  cbn. by apply andb_true_iff in Hlast as [_ ?].
Qed.

(** X1.  Each of the four labels of a record (kind, name, subsystem,
    category) is the label of the last sub-field of its tag that resolves
    to a non-empty label; sub-fields of that tag that resolve to nothing
    leave it alone, and it is absent when there is no resolving sub-field.
    An extracted label is never the empty string. *)
Theorem labels_last_resolved_wins (tb : Tables) (elem : Element) (tg : string)
    (table : gmap string string) :
  label_table tg tb = Some table →
  label_field tg (parse_row tb elem) = last_label tg table (children elem) ∧
  label_field tg (parse_row tb elem) ≠ Some EmptyString ∧
  (∀ c : Element,
     last (List.filter (labelled tg table) (children elem)) = Some c →
     tag c = tg ∧
     label_field tg (parse_row tb elem) = _resolve_fmt (Some c) table).
Proof.
  intros Htable. rewrite (parse_row_label tb elem tg table Htable).
  split; [done|]. split.
  - destruct (last_label_truthy tg table (children elem)) as [->| H]; [done|].
    intros Heq. by rewrite Heq in H.
  - intros c Hlast. unfold last_label. rewrite Hlast. split; [|done].
    apply last_filter_hit in Hlast. unfold labelled, is_tag in Hlast.
    apply andb_true_iff in Hlast as [Htag _].
    by apply bool_decide_eq_true in Htag.
Qed.

Lemma labels_last_resolved_wins_witness :
  event_kind (parse_row tables_7 row_mixed) = Some "Begin" ∧
  name (parse_row tables_7 row_mixed) = Some "Frame" ∧
  category (parse_row tables_7 row_mixed) = None.
Proof.
  destruct (labels_last_resolved_wins tables_7 row_mixed "event-type" ∅ eq_refl)
    as (Hk & _ & _).
  destruct (labels_last_resolved_wins tables_7 row_mixed "signpost-name"
              names_7 eq_refl) as (Hn & _ & _).
  destruct (labels_last_resolved_wins tables_7 row_mixed "category" ∅ eq_refl)
    as (Hc & _ & _).
  exact (conj Hk (conj Hn Hc)).
Defined.

(** X2.  The thread key of a record comes from the last thread sub-field
    that carries a non-empty identifier: its reference id when that is
    non-empty, otherwise its own id.  Thread sub-fields without an
    identifier leave the key alone, the key is absent when no thread
    sub-field carries one, it is never the empty string, and it does not
    depend on the tables. *)
Theorem thread_key_last_wins (tb : Tables) (elem : Element) :
  thread_id (parse_row tb elem) ≠ Some EmptyString ∧
  (last (List.filter thread_hit (children elem)) = None →
   thread_id (parse_row tb elem) = None) ∧
  (∀ c : Element,
     last (List.filter thread_hit (children elem)) = Some c →
     tag c = "thread" ∧
     (Py.truthy (attrib c !! "ref") = true →
      thread_id (parse_row tb elem) = attrib c !! "ref") ∧
     (Py.truthy (attrib c !! "ref") = false →
      thread_id (parse_row tb elem) = attrib c !! "id")).
Proof.
  unfold parse_row.
  rewrite (fold_last_wins _ thread_id _ _ (row_child_thread_id tb)).
  destruct (last _) as [c|] eqn:Hlast.
  - pose proof (last_filter_hit _ _ _ Hlast) as Hhit.
    unfold thread_hit, is_tag in Hhit.
    apply andb_true_iff in Hhit as [Htag Hid].
    apply bool_decide_eq_true in Htag.
    split; [intros Heq; by rewrite Heq in Hid|]. split; [done|].
    intros c' [= <-]. split; [done|]. cbn. unfold Py.or. split; by intros ->.
  - split; [done|]. split; [done|]. intros c' [=].
Qed.

Lemma thread_key_last_wins_witness :
  thread_id (parse_row tables_7 row_mixed) = Some "t2" ∧
  thread_id (parse_row no_tables row_two_times) = None.
Proof.
  destruct (thread_key_last_wins tables_7 row_mixed) as (_ & _ & H).
  destruct (H (mkElement "thread" {[ "ref" := ""; "id" := "t2" ]} None [])
              eq_refl) as (_ & _ & Hid).
  destruct (thread_key_last_wins no_tables row_two_times) as (_ & Hnone & _).
  split; [exact (Hid eq_refl)|exact (Hnone eq_refl)].
Defined.

(** X3.  The correlation key of a record is decided by its last
    identifier sub-field alone: the inline value when it is non-empty,
    otherwise the trimmed text when it is non-empty, otherwise the
    reference id (absent or empty when there is none).  A later identifier
    sub-field that carries nothing erases what an earlier one gave. *)
Theorem signpost_id_last_child (tb : Tables) (elem : Element) :
  (last (List.filter (is_tag "os-signpost-identifier") (children elem)) = None →
   signpost_id (parse_row tb elem) = None) ∧
  (∀ c : Element,
     last (List.filter (is_tag "os-signpost-identifier") (children elem))
       = Some c →
     (Py.truthy (attrib c !! "fmt") = true →
      signpost_id (parse_row tb elem) = attrib c !! "fmt") ∧
     (Py.truthy (attrib c !! "fmt") = false →
      text_stripped c ≠ EmptyString →
      signpost_id (parse_row tb elem) = Some (text_stripped c)) ∧
     (Py.truthy (attrib c !! "fmt") = false →
      text_stripped c = EmptyString →
      signpost_id (parse_row tb elem) = attrib c !! "ref")).
Proof.
  unfold parse_row.
  rewrite (fold_last_wins _ signpost_id _ _ (row_child_signpost_id tb)).
  split; [by intros ->|]. intros c ->. unfold Py.or.
  split; [|split]; intros Hfmt; rewrite Hfmt; cbn match.
  - by rewrite Hfmt.
  - intros Htxt. by destruct (text_stripped c).
  - by intros ->.
Qed.

Lemma signpost_id_last_child_witness :
  signpost_id (parse_row tables_7 row_mixed) = Some "11" ∧
  signpost_id (parse_row no_tables row_end_alone) = Some "0xB" ∧
  signpost_id (parse_row no_tables
                 (mkElement "row" ∅ None
                    [ field "os-signpost-identifier" "0xA";
                      mkElement "os-signpost-identifier" ∅ None [] ])) = None.
Proof.
  destruct (signpost_id_last_child tables_7 row_mixed) as (_ & H1).
  destruct (H1 _ eq_refl) as (_ & Htext & _).
  destruct (signpost_id_last_child no_tables row_end_alone) as (_ & H2).
  destruct (H2 _ eq_refl) as (_ & Htext2 & _).
  destruct (signpost_id_last_child no_tables
              (mkElement "row" ∅ None
                 [ field "os-signpost-identifier" "0xA";
                   mkElement "os-signpost-identifier" ∅ None [] ]))
    as (_ & H3).
  destruct (H3 _ eq_refl) as (_ & _ & Href).
  split; [exact (Htext eq_refl ltac:(discriminate))|].
  split; [exact (Htext2 eq_refl ltac:(discriminate))|].
  exact (Href eq_refl eq_refl).
Defined.

(** X4.  The extraction reads the tag, the attributes and the text of the
    sub-fields with one of its eight tags and nothing else: sub-fields
    with another tag, and the sub-elements of the sub-fields, make no
    difference to the extracted record. *)
Theorem parse_row_known_shallow (tb : Tables) (elem : Element) :
  parse_row tb elem =
    parse_row tb
      (mkElement (tag elem) (attrib elem) (text elem)
                 (shallow <$> List.filter known_tag (children elem))).
Proof.
  unfold parse_row. cbn [children]. generalize row_init as r.
  induction (children elem) as [|c cs IH]; intros r; [done|].
  cbn [fold_left List.filter]. destruct (known_tag c) eqn:Hc.
  - cbn [fmap list_fmap fold_left]. rewrite row_child_shallow. apply IH.
  - rewrite (row_child_unknown tb r c Hc). apply IH.
Qed.

Example parse_row_mixed :
  parse_row tables_7 row_mixed =
    {| time_ns := None; time_fmt := None; event_kind := Some "Begin";
       name := Some "Frame"; subsystem := None; category := None;
       thread_id := Some "t2"; signpost_id := Some "11" |}.
Proof. reflexivity. Qed.

(** ** The tables *)

Lemma parse_row_thread_fmt (th : gmap string string) (tb : Tables)
    (elem : Element) :
  parse_row (with_thread_fmt th tb) elem = parse_row tb elem.
Proof. reflexivity. Qed.

Lemma capture_thread_fmt (th : gmap string string) (tb : Tables)
    (elem : Element) :
  ∃ th', capture (with_thread_fmt th tb) elem =
           with_thread_fmt th' (capture tb elem).
Proof.
  destruct tb as [et sn ss ca th0]. unfold capture, with_thread_fmt.
  cbn [event_type_fmt signpost_name_fmt subsystem_fmt category_fmt thread_fmt].
  repeat (case_bool_decide; [by eexists|]). by eexists.
Qed.

Lemma loop_body_thread_fmt (args : Args.t) (th : gmap string string)
    (tb : Tables) (c : Corr) (elem : Element) :
  ∃ th', loop_body args (mkState (with_thread_fmt th tb) c) elem =
           mkState (with_thread_fmt th' (tabs (loop_body args (mkState tb c) elem)))
                   (corr (loop_body args (mkState tb c) elem)).
Proof.
  destruct (decide (tag elem = "row")) as [Hrow|Hrow].
  - exists th. rewrite !loop_body_row by done. cbn [tabs corr].
    rewrite parse_row_thread_fmt. by destruct (accepted _ _).
  - rewrite !loop_body_not_row by done. cbn [tabs corr].
    destruct (capture_thread_fmt th tb elem) as [th' ->]. by exists th'.
Qed.

(** X5.  The thread label table is filled but never read: whatever it
    holds when the pass comes to a stream, the correlator state after the
    stream and the other four tables are the same. *)
Theorem thread_fmt_never_read (args : Args.t) (stream : list Element)
    (st : State) (th : gmap string string) :
  let st1 := fold_left (loop_body args) stream st in
  let st2 := fold_left (loop_body args) stream
               (mkState (with_thread_fmt th (tabs st)) (corr st)) in
  corr st2 = corr st1 ∧
  event_type_fmt (tabs st2) = event_type_fmt (tabs st1) ∧
  signpost_name_fmt (tabs st2) = signpost_name_fmt (tabs st1) ∧
  subsystem_fmt (tabs st2) = subsystem_fmt (tabs st1) ∧
  category_fmt (tabs st2) = category_fmt (tabs st1).
Proof.
  cbn zeta.
  assert (∃ th', fold_left (loop_body args) stream
                   (mkState (with_thread_fmt th (tabs st)) (corr st)) =
                 mkState (with_thread_fmt th' (tabs (fold_left (loop_body args) stream st)))
                         (corr (fold_left (loop_body args) stream st))) as [th' ->].
  { revert st th. induction stream as [|elem stream IH]; intros [tb c] th.
    - by exists th.
    - cbn [fold_left tabs corr].
      destruct (loop_body_thread_fmt args th tb c elem) as [th' ->].
      destruct (loop_body args (mkState tb c) elem) as [tb1 c1] eqn:Hst.
      apply (IH (mkState tb1 c1)). }
  done.
Qed.

Lemma memo_skip (elem : Element) (table : gmap string string) :
  Py.truthy (attrib elem !! "id") && Py.truthy (attrib elem !! "fmt") = false →
  memo elem table = table.
Proof.
  unfold memo. destruct (attrib elem !! "id") as [i|], (attrib elem !! "fmt") as [f|];
    try done. by intros ->.
Qed.

Lemma memo_insert (elem : Element) (table : gmap string string) (i f : string) :
  attrib elem !! "id" = Some i → i ≠ EmptyString →
  attrib elem !! "fmt" = Some f → f ≠ EmptyString →
  memo elem table = <[i := f]> table.
Proof.
  unfold memo. intros -> Hi -> Hf. by destruct i, f.
Qed.

Lemma def_table_capture (tb : Tables) (elem : Element) (tg : string) :
  def_table tg (capture tb elem) =
    if bool_decide (tg = tag elem) then memo elem <$> def_table tg tb
    else def_table tg tb.
Proof.
  destruct tb as [et sn ss ca th]. unfold def_table, label_table, capture.
  case_bool_decide as Htg.
  - subst tg. repeat (case_bool_decide; try (exfalso; congruence); try done).
  - repeat (case_bool_decide; try (exfalso; congruence); try done).
Qed.

Lemma capture_other_tag (tb : Tables) (elem : Element) :
  def_table (tag elem) tb = None → capture tb elem = tb.
Proof.
  destruct tb as [et sn ss ca th]. unfold def_table, label_table, capture.
  repeat (case_bool_decide; try done).
Qed.

(** X6.  A definition node is captured in the table of its tag and in no
    other: with a non-empty id and a non-empty label the label is stored
    under the id, replacing what was stored there and leaving the other ids
    alone; with the id or the label missing or empty nothing is stored.  A
    node with any other tag changes no table. *)
Theorem capture_registers (tb : Tables) (elem : Element) :
  (def_table (tag elem) tb = None → capture tb elem = tb) ∧
  (∀ tg, tg ≠ tag elem → def_table tg (capture tb elem) = def_table tg tb) ∧
  (∀ table, def_table (tag elem) tb = Some table →
     ∃ table', def_table (tag elem) (capture tb elem) = Some table' ∧
       (Py.truthy (attrib elem !! "id") && Py.truthy (attrib elem !! "fmt")
          = false → table' = table) ∧
       (∀ i f, attrib elem !! "id" = Some i → i ≠ EmptyString →
               attrib elem !! "fmt" = Some f → f ≠ EmptyString →
               table' !! i = Some f ∧ ∀ j, j ≠ i → table' !! j = table !! j)).
Proof.
  split; [apply capture_other_tag|]. split.
  - intros tg Htg. rewrite def_table_capture. by rewrite bool_decide_eq_false_2.
  - intros table Htable. exists (memo elem table). split; [|split].
    + rewrite def_table_capture, bool_decide_eq_true_2 by done. by rewrite Htable.
    + apply memo_skip.
    + intros i f Hi Hine Hf Hfne. rewrite (memo_insert elem table i f) by done.
      split; [apply lookup_insert_eq|]. intros j Hj. by apply lookup_insert_ne.
Qed.

Lemma capture_registers_witness :
  event_type_fmt (capture (capture no_tables def_end_kind)
                    (mkElement "event-type" {[ "id" := "9"; "fmt" := "End" ]} None []))
    !! "9" = Some "End" ∧
  def_table "signpost-name"
    (capture tables_7
       (mkElement "signpost-name" {[ "id" := "7"; "fmt" := "" ]} None []))
    = Some names_7 ∧
  capture tables_7 (mkElement "row" {[ "id" := "7"; "fmt" := "x" ]} None [])
    = tables_7.
Proof.
  split; [|split].
  - destruct (proj2 (proj2 (capture_registers (capture no_tables def_end_kind)
                (mkElement "event-type" {[ "id" := "9"; "fmt" := "End" ]} None [])))
                _ eq_refl) as (table' & [= <-] & _ & Hins).
    apply (Hins "9" "End"); [reflexivity|discriminate|reflexivity|discriminate].
  - destruct (proj2 (proj2 (capture_registers tables_7
                (mkElement "signpost-name" {[ "id" := "7"; "fmt" := "" ]} None [])))
                _ eq_refl) as (table' & Heq & Hskip & _).
    rewrite (Hskip eq_refl) in Heq. exact Heq.
  - apply (proj1 (capture_registers tables_7
             (mkElement "row" {[ "id" := "7"; "fmt" := "x" ]} None []))).
    reflexivity.
Defined.






Lemma accepted_needs_labels (args : Args.t) (r : Row) (tg : string)
    (table : gmap string string) (tb : Tables) :
  label_table tg tb = Some table → label_field tg r = None →
  accepted args r = None.
Proof.
  unfold label_table, label_field, accepted, subsystem_category_ok, required_ok.
  destruct r as [t tf ek nm ss ca th sid].
  cbn [time_ns time_fmt event_kind name subsystem category thread_id signpost_id].
  repeat case_bool_decide; try discriminate; intros _ ->; subst;
    cbn [negb andb Py.truthy]; try reflexivity; try congruence.
  all: by rewrite ?andb_false_r.
Qed.

(** X8.  A reference is resolved against the table as it is when the
    record is read, and never again: when every sub-field of one of the
    four label tags carries no inline label and refers to an id that is not
    in the table at that point, the label is absent, whatever the raw text
    of the sub-field, and the record is dropped without any change of the
    state. *)
Theorem unresolved_reference_drops (args : Args.t) (st : State) (row : Element)
    (tg : string) (table : gmap string string) :
  tag row = "row" →
  label_table tg (tabs st) = Some table →
  Forall (λ c, tag c = tg →
               Py.truthy (attrib c !! "fmt") = false ∧
               ∃ r, attrib c !! "ref" = Some r ∧ r ≠ EmptyString ∧
                    table !! r = None) (children row) →
  label_field tg (parse_row (tabs st) row) = None ∧
  loop_body args st row = st.
Proof.
  intros Hrow Htable Hcs.
  assert (label_field tg (parse_row (tabs st) row) = None) as Hnone.
  { rewrite (parse_row_label _ row tg table Htable). unfold last_label.
    assert (List.filter (labelled tg table) (children row) = []) as ->; [|done].
    induction Hcs as [|c cs Hc _ IH]; [done|]. cbn [List.filter].
    unfold labelled at 1, is_tag. case_bool_decide as Htag; [|done].
    destruct (Hc Htag) as (Hfmt & r & Href & Hr & Hmiss).
    by rewrite (resolve_fmt_ref c table r), Hmiss. }
  split; [done|]. rewrite loop_body_row by done.
  by rewrite (accepted_needs_labels args _ tg table (tabs st) Htable Hnone).
Qed.

Lemma unresolved_reference_drops_witness :
  loop_body Args.default init row_ref_name = init ∧
  corr (run Args.default [row_ref_name; def_name_7]) = corr init ∧
  corr (run Args.default [def_name_7; row_ref_name]) =
    mkCorr {[ ("t1", "0xA") := (10, "Frame", None) ]} [] 0 0.
Proof.
  split; [|split; reflexivity].
  apply (unresolved_reference_drops Args.default init row_ref_name
           "signpost-name" ∅ eq_refl eq_refl).
  repeat first [apply List.Forall_nil | apply List.Forall_cons];
    intros Htag; try discriminate Htag.
  split; [reflexivity|]. exists "7". repeat split. discriminate.
Defined.

(** ** The correlator: keys and counters *)

(** The entry of a record's own key after the record. *)
Lemma correlate_own_key (c : Corr) (e : Event) :
  open_intervals (correlate c e) !! ev_key e =
    if begins e then Some (ev_time e, ev_name e, ev_fmt e)
    else if ends e then None
    else open_intervals c !! ev_key e.
Proof.
  destruct (begins e) eqn:Hb.
  { rewrite correlate_begins by done. apply lookup_insert_eq. }
  destruct (ends e) eqn:He; [|by rewrite correlate_dropped].
  destruct (open_intervals c !! ev_key e) as [[[t0 n0] f0]|] eqn:Ho.
  - rewrite (correlate_ends_open c e t0 n0 f0) by done.
    destruct (0 <=? _); apply lookup_delete_eq.
  - by rewrite correlate_ends_absent.
Qed.

(** X9.  The keys are independent state machines: the open interval of a
    key after any sequence of records is the one that the records on that
    key alone would leave, whatever the records on the other keys are. *)
Theorem per_key_state (evs : list Event) (c : Corr) (k : string * string) :
  open_intervals (fold_left correlate evs c) !! k =
    open_intervals (fold_left correlate (List.filter (on_key k) evs) c) !! k.
Proof.
  assert (∀ c c', open_intervals c !! k = open_intervals c' !! k →
            open_intervals (fold_left correlate evs c) !! k =
            open_intervals (fold_left correlate (List.filter (on_key k) evs) c') !! k)
    as H; [|by apply H].
  induction evs as [|e evs IH]; intros c1 c2 Hc; [done|].
  cbn [fold_left List.filter]. unfold on_key at 1. case_bool_decide as Hk.
  - cbn [fold_left]. apply IH. subst k. rewrite !correlate_own_key.
    by destruct (begins e), (ends e).
  - apply IH. rewrite correlate_keeps_key by auto. done.
Qed.

Example per_key_state_interleaved :
  let c := fold_left correlate evs_interleaved corr0 in
  open_intervals c = {[ ("t2", "2") := (50, "C", None) ]} ∧
  durations_by_name c = [("A", [20]); ("B", [20])] ∧
  matched c = 2 ∧ unmatched_ends c = 1.
Proof. repeat split; reflexivity. Qed.

Lemma correlate_accounting (c : Corr) (e : Event) :
  let c' := correlate c e in
  matched c ≤ matched c' ∧ unmatched_ends c ≤ unmatched_ends c' ∧
  (matched c' - matched c) + (unmatched_ends c' - unmatched_ends c)
    ≤ (if ends e then 1 else 0) ∧
  Z.of_nat (size (open_intervals c')) + (matched c' - matched c)
    ≤ Z.of_nat (size (open_intervals c)) + (if begins e then 1 else 0).
Proof.
  cbn zeta. destruct (begins e) eqn:Hb.
  { rewrite correlate_begins by done.
    cbn [open_intervals matched unmatched_ends].
    assert (ends e = false) as ->.
    { unfold begins, ends in *. by destruct (is_begin _), (is_end _). }
    destruct (open_intervals c !! ev_key e) eqn:Ho.
    - rewrite map_size_insert_Some by eauto. lia.
    - rewrite map_size_insert_None by done. lia. }
  destruct (ends e) eqn:He; [|rewrite correlate_dropped by done; lia].
  destruct (open_intervals c !! ev_key e) as [[[t0 n0] f0]|] eqn:Ho.
  - rewrite (correlate_ends_open c e t0 n0 f0) by done.
    assert (size (open_intervals c) ≠ 0%nat).
    { intros H0. apply map_size_empty_inv in H0. by rewrite H0 in Ho. }
    destruct (0 <=? _); cbn [open_intervals matched unmatched_ends];
      rewrite map_size_delete_Some by eauto; lia.
  - rewrite correlate_ends_absent by done.
    cbn [open_intervals matched unmatched_ends]. lia.
Qed.

Lemma fold_correlate_accounting (evs : list Event) (c : Corr) :
  let c' := fold_left correlate evs c in
  matched c ≤ matched c' ∧ unmatched_ends c ≤ unmatched_ends c' ∧
  (matched c' - matched c) + (unmatched_ends c' - unmatched_ends c)
    ≤ count_ends evs ∧
  Z.of_nat (size (open_intervals c')) + (matched c' - matched c)
    ≤ Z.of_nat (size (open_intervals c)) + count_begins evs.
Proof.
  cbn zeta. unfold count_ends, count_begins.
  revert c. induction evs as [|e evs IH]; intros c.
  - cbn. lia.
  - cbn [fold_left List.filter].
    pose proof (correlate_accounting c e) as Hstep. cbn zeta in Hstep.
    specialize (IH (correlate c e)).
    destruct (begins e), (ends e); cbn [length] in *; lia.
Qed.

Lemma fold_correlate_accounting_init (evs : list Event) :
  let c' := fold_left correlate evs (corr init) in
  0 ≤ matched c' ∧ 0 ≤ unmatched_ends c' ∧
  matched c' + unmatched_ends c' ≤ count_ends evs ∧
  matched c' + Z.of_nat (size (open_intervals c')) ≤ count_begins evs.
Proof.
  pose proof (fold_correlate_accounting evs (corr init)) as H.
  cbn zeta in *. change (corr init) with (mkCorr ∅ [] 0 0) in *.
  cbn [matched unmatched_ends open_intervals] in H.
  rewrite map_size_empty in H. lia.
Qed.

(** X10.  The two counters never decrease during a pass and every unit
    is paid for by a record: after the pass over any stream, [matched] plus
    [unmatched_ends] is at most the number of end-candidates among the
    accepted records, and [matched] plus the number of intervals still open
    is at most the number of begin-candidates. *)
Theorem counters_accounted (args : Args.t) (before after : list Element) :
  let evs := records_of args (tabs init) (before ++ after) in
  let c1 := corr (run args before) in
  let c2 := corr (run args (before ++ after)) in
  0 ≤ matched c1 ≤ matched c2 ∧
  0 ≤ unmatched_ends c1 ≤ unmatched_ends c2 ∧
  matched c2 + unmatched_ends c2 ≤ count_ends evs ∧
  matched c2 + Z.of_nat (size (open_intervals c2)) ≤ count_begins evs.
Proof.
  cbn zeta.
  pose proof (fold_correlate_accounting_init
                (records_of args (tabs init) before)) as H1.
  pose proof (fold_correlate_accounting_init
                (records_of args (tabs init) (before ++ after))) as H2.
  rewrite <- !corr_run in H1, H2. cbn zeta in H1, H2.
  assert (matched (corr (run args before)) ≤ matched (corr (run args (before ++ after)))
          ∧ unmatched_ends (corr (run args before))
            ≤ unmatched_ends (corr (run args (before ++ after)))) as H3.
  { unfold run. rewrite fold_left_app.
    set (st := fold_left (loop_body args) before init).
    rewrite (corr_fold_loop_body args after st).
    pose proof (fold_correlate_accounting
                  (records_of args (tabs st) after) (corr st)) as H.
    cbn zeta in H. lia. }
  lia.
Qed.

(** X11.  An end-candidate uses up the open interval of its key, whether
    or not it records a sample: a second end-candidate on the same key,
    with no begin-candidate on the key in between, finds nothing open and
    only adds one to [unmatched_ends]. *)
Theorem end_consumes_interval (c : Corr) (e1 e2 : Event) (mid : list Event)
    (t0 : Z) (n0 : string) (f0 : option string) :
  ends e1 = true → ends e2 = true → ev_key e2 = ev_key e1 →
  open_intervals c !! ev_key e1 = Some (t0, n0, f0) →
  Forall (λ m, ev_key m ≠ ev_key e1 ∨ (begins m = false ∧ ends m = false)) mid →
  let c1 := correlate c e1 in
  let c2 := fold_left correlate mid c1 in
  open_intervals c1 !! ev_key e1 = None ∧
  correlate c2 e2 =
    mkCorr (open_intervals c2) (durations_by_name c2)
           (unmatched_ends c2 + 1) (matched c2).
Proof.
  intros He1 He2 Hkey Ho Hmid c1 c2.
  assert (open_intervals c1 !! ev_key e1 = None) as Hc1.
  { unfold c1. rewrite correlate_own_key, He1.
    unfold begins, ends in *. by destruct (is_begin _), (is_end _). }
  split; [done|]. apply correlate_ends_absent; [done|].
  unfold c2. by rewrite Hkey, fold_correlate_keeps_key.
Qed.

Lemma end_consumes_interval_witness :
  let c := fold_left correlate (take 3 evs_interleaved) corr0 in
  correlate c (mkEvent 35 "End" "A" "t1" "1" None) =
    mkCorr {[ ("t2", "1") := (20, "B", None) ]} [("A", [20])] 1 1.
Proof.
  exact (proj2 (end_consumes_interval
                  (fold_left correlate (take 2 evs_interleaved) corr0)
                  (mkEvent 30 "End" "A" "t1" "1" None)
                  (mkEvent 35 "End" "A" "t1" "1" None) []
                  10 "A" None eq_refl eq_refl eq_refl eq_refl
                  (List.Forall_nil _))).
Defined.

(** ** Aggregation: the rows *)

Lemma dur_append_names (d : list (string * list Z)) (nm : string) (dt : Z) :
  (dur_append d nm dt).*1 = if bool_decide (nm ∈ d.*1) then d.*1 else d.*1 ++ [nm].
Proof.
  induction d as [|[k l] d IH]; cbn.
  - rewrite bool_decide_eq_false_2; [done|]. apply not_elem_of_nil.
  - destruct (decide (k = nm)) as [->|Hk].
    + rewrite (bool_decide_eq_true_2 (nm = nm)) by done. cbn.
      rewrite bool_decide_eq_true_2; [done|]. apply elem_of_cons. by left.
    + rewrite (bool_decide_eq_false_2 (k = nm)) by done. cbn. rewrite IH.
      destruct (decide (nm ∈ d.*1)) as [Hin|Hin].
      * rewrite !bool_decide_eq_true_2; [done| |done].
        apply elem_of_cons. by right.
      * rewrite !bool_decide_eq_false_2; [done| |done].
        intros [?|?]%elem_of_cons; congruence.
Qed.

Lemma NoDup_dur_append (d : list (string * list Z)) (nm : string) (dt : Z) :
  NoDup d.*1 → NoDup (dur_append d nm dt).*1.
Proof.
  intros Hd. rewrite dur_append_names. case_bool_decide as Hin; [done|].
  apply NoDup_app. repeat split; [done| |apply NoDup_singleton].
  intros x Hx ->%list_elem_of_singleton. done.
Qed.

Lemma samples_of_entry (d : list (string * list Z)) (k : string) (l : list Z) :
  NoDup d.*1 → (k, l) ∈ d → samples_of d k = l.
Proof.
  induction d as [|[k' l'] d IH]; cbn; [by intros _ ?%elem_of_nil|].
  intros [Hk' Hd]%NoDup_cons [[= <- <-]|Hin]%elem_of_cons.
  - by rewrite bool_decide_eq_true_2.
  - rewrite bool_decide_eq_false_2; [by apply IH|].
    intros ->. apply Hk'. apply list_elem_of_fmap. by exists (k, l).
Qed.

(** X12.  Every interval name has at most one row in the report, and the
    row of a name is computed from the samples held for that name and from
    nothing else: its count is their number and its total their sum. *)
Theorem one_row_per_name (args : Args.t) (stream : list Element) :
  let c := corr (run args stream) in
  NoDup (row_interval_name <$> rows c) ∧
  row_interval_name <$> rows c ≡ₚ (durations_by_name c).*1 ∧
  (∀ r, r ∈ rows c →
     r = report_row (row_interval_name r,
                     samples_of (durations_by_name c) (row_interval_name r)) ∧
     row_count r = length (samples_of (durations_by_name c) (row_interval_name r)) ∧
     row_total r = sum (samples_of (durations_by_name c) (row_interval_name r))).
Proof.
  cbn zeta. set (c := corr (run args stream)).
  assert (NoDup (durations_by_name c).*1) as Hnd.
  { unfold c. apply (run_invariant (λ c, NoDup (durations_by_name c).*1)).
    - constructor.
    - intros c0 e H0.
      destruct (correlate_cases c0 e) as [->|[->|[->|[->|(nm & dt & _ & ->)]]]];
        cbn [durations_by_name]; try done.
      by apply NoDup_dur_append. }
  assert (row_interval_name <$> rows c ≡ₚ (durations_by_name c).*1) as Hperm.
  { unfold rows. rewrite sort_by_Permutation, <- list_fmap_compose.
    erewrite list_fmap_ext; [reflexivity|]. by intros _ [k l] _. }
  split; [by rewrite Hperm|]. split; [done|].
  intros r Hr. unfold rows in Hr. rewrite sort_by_Permutation in Hr.
  apply list_elem_of_fmap in Hr as ([k l] & -> & Hkl).
  cbn [report_row row_interval_name row_count row_total].
  by rewrite (samples_of_entry _ k l Hnd Hkl).
Qed.

Lemma insert_by_key_order {A} (key : A → Z) (reverse : bool) (x : A) (l : list A) :
  Sorted (key_order key reverse) l →
  Sorted (key_order key reverse) (insert_by key reverse x l).
Proof.
  unfold key_order.
  induction 1 as [|y l Hl IH Hy]; cbn; [by repeat constructor|].
  destruct (if reverse then key y <=? key x else key x <=? key y) eqn:Hxy.
  - constructor; [by constructor|]. constructor. destruct reverse; lia.
  - constructor; [done|].
    destruct Hy as [|z l Hz]; cbn.
    + constructor. destruct reverse; lia.
    + destruct (if reverse then key z <=? key x else key x <=? key z);
        constructor; destruct reverse; lia.
Qed.

Lemma sort_by_Sorted {A} (key : A → Z) (reverse : bool) (l : list A) :
  Sorted (key_order key reverse) (sort_by key reverse l).
Proof.
  unfold sort_by. induction l as [|x l IH]; cbn; [constructor|].
  by apply insert_by_key_order.
Qed.

Lemma with_key_insert_by {A} (key : A → Z) (reverse : bool) (k : Z) (x : A)
    (l : list A) :
  with_key key k (insert_by key reverse x l) = with_key key k (x :: l).
Proof.
  unfold with_key. induction l as [|y l IH]; [done|]. cbn [insert_by].
  destruct (if reverse then key y <=? key x else key x <=? key y) eqn:Hxy;
    [done|].
  cbn [List.filter] in *. rewrite IH.
  destruct (key y =? k) eqn:Hy, (key x =? k) eqn:Hx; try done.
  destruct reverse; lia.
Qed.

Lemma with_key_sort_by {A} (key : A → Z) (reverse : bool) (k : Z) (l : list A) :
  with_key key k (sort_by key reverse l) = with_key key k l.
Proof.
  unfold sort_by. induction l as [|x l IH]; [done|]. cbn [foldr].
  rewrite with_key_insert_by. unfold with_key in *. cbn [List.filter].
  by rewrite IH.
Qed.

(** X13.  The rows of the report are the rows of the names ordered by
    total, largest first, and the sort is stable: rows with the same total
    stay in the order in which their names got their first sample. *)
Theorem rows_sorted_stable (c : Corr) :
  Sorted (λ a b, row_total b ≤ row_total a) (rows c) ∧
  rows c ≡ₚ report_row <$> durations_by_name c ∧
  (∀ total, with_key row_total total (rows c) =
            with_key row_total total (report_row <$> durations_by_name c)).
Proof.
  unfold rows. split; [|split].
  - apply (sort_by_Sorted row_total true).
  - apply sort_by_Permutation.
  - intros total. apply with_key_sort_by.
Qed.

Example rows_three_names :
  row_interval_name <$> rows corr_three_names = ["B"; "A"; "C"] ∧
  row_total <$> rows corr_three_names = [30; 10; 10].
Proof. split; reflexivity. Qed.

(** X14.  The table holds the first [top] rows: for a nonnegative [top]
    the [top] rows with the largest totals, all rows when there are fewer;
    for a negative [top] all rows but the last [-top]; none when [top] is
    zero. *)
Theorem table_top_rows (args : Args.t) (c : Corr) :
  let n := Z.of_nat (length (rows c)) in
  let top := Args.top args in
  table (report args c) `prefix_of` rows c ∧
  Z.of_nat (length (table (report args c))) =
    (if 0 <=? top then Z.min top n else Z.max 0 (n + top)) ∧
  (n ≤ top → table (report args c) = rows c) ∧
  (top = 0 → table (report args c) = []).
Proof.
  cbn zeta. split; [apply table_prefix|]. split; [|split].
  - unfold report, slice_to. cbn [table].
    destruct (0 <=? Args.top args) eqn:Htop; rewrite length_take; lia.
  - apply table_all_rows.
  - intros Htop. unfold report, slice_to. cbn [table]. by rewrite Htop.
Qed.

Lemma table_top_rows_witness :
  row_interval_name <$> table (report (Args.mk "engine-sim" "perf" 0) corr_three_names)
    = [] ∧
  row_interval_name <$> table (report Args.default corr_three_names)
    = ["B"; "A"; "C"] ∧
  row_interval_name <$> table (report (Args.mk "engine-sim" "perf" (-1)) corr_three_names)
    = ["B"; "A"].
Proof.
  destruct (table_top_rows (Args.mk "engine-sim" "perf" 0) corr_three_names)
    as (_ & _ & _ & H0).
  destruct (table_top_rows Args.default corr_three_names) as (_ & _ & Hall & _).
  split; [by rewrite (H0 eq_refl)|]. split; [|reflexivity].
  rewrite Hall; [reflexivity|]. vm_compute. discriminate.
Defined.

(** ** The percentile estimator: further properties *)

Lemma sorted_Permutation (values values' : list Z) :
  values ≡ₚ values' → sorted values = sorted values'.
Proof.
  intros Hperm. apply (Sorted_unique Z.le); [apply sorted_Sorted..|].
  unfold sorted. by rewrite !sort_by_Permutation.
Qed.

(** X15.  The estimator depends on the samples only, not on their order:
    two lists with the same samples give the same result. *)
Theorem pct_permutation (values values' : list Z) (p : Q) :
  values ≡ₚ values' → _pct values p = _pct values' p.
Proof.
  intros Hperm. unfold _pct. rewrite (sorted_Permutation _ _ Hperm).
  destruct values as [|v values], values' as [|v' values']; try done.
  - by apply Permutation_nil_cons in Hperm.
  - symmetry in Hperm. by apply Permutation_nil_cons in Hperm.
Qed.

Lemma pct_permutation_witness :
  _pct [40; 10; 30; 20] (95 # 100) = _pct [10; 20; 30; 40] (95 # 100).
Proof.
  apply pct_permutation.
  apply (Permutation_trans (l' := sorted [40; 10; 30; 20])).
  - symmetry. apply sort_by_Permutation.
  - reflexivity.
Defined.























(** ** The rows of a pass *)





Example rows_well_defined_stream_load :
  let c := corr (run Args.default
                   (stream_load ++
                    [ record "6000" "Begin" "Load" "t1" "0xA";
                      record "6100" "End" "Load" "t1" "0xA" ])) in
  (λ r, (row_interval_name r, row_count r, row_total r, row_max r)) <$> rows c
    = [("Load", 2%nat, 4100, 4000)].
Proof. reflexivity. Qed.

(** ** The loop over a document *)

Lemma tabs_loop_body (args : Args.t) (st : State) (elem : Element) :
  tabs (loop_body args st elem) = capture (tabs st) elem.
Proof.
  destruct (decide (tag elem = "row")) as [Hrow|Hrow].
  - rewrite loop_body_row, capture_row by done. by destruct (accepted _ _).
  - by rewrite loop_body_not_row.
Qed.

Lemma events_postorder (elem : Element) : events elem = seen <$> postorder elem.
Proof.
  induction elem as [tg at_ tx cs IH] using Element_children_ind.
  cbn [events postorder children]. rewrite fmap_app. f_equal.
  induction IH as [|c cs Hc _ IHcs]; [done|].
  cbn [flat_map]. by rewrite fmap_app, Hc, IHcs.
Qed.

Lemma tabs_fold_loop_body (args : Args.t) (l : list Element) (st : State) :
  tabs (fold_left (loop_body args) (seen <$> l) st) =
    fold_left capture l (tabs st).
Proof.
  revert st. induction l as [|e l IH]; intros st; [done|].
  cbn [fmap list_fmap fold_left]. rewrite IH, tabs_loop_body. reflexivity.
Qed.

(** X21.  Since the sub-elements of a row have been cleared when the
    iteration for the row reads them, no row of a document passes the
    filters: for every document and every choice of the arguments the
    report of [main] has all three counters at zero and an empty table. *)
Theorem main_reports_nothing (args : Args.t) (root : Element) :
  main args root =
    {| matched_intervals := 0; open_intervals_remaining := 0;
       unmatched_end_events := 0; table := [] |}.
Proof.
  unfold main. rewrite main_loop_corr. unfold report, slice_to.
  cbn [init corr matched unmatched_ends open_intervals durations_by_name].
  rewrite map_size_empty. change (rows (mkCorr ∅ [] 0 0)) with (@nil ReportRow).
  by destruct (0 <=? Args.top args); rewrite take_nil.
Qed.

(** X22.  The tables at the end of the loop over a document are the
    captures of all its elements in the order of their end tags, each with
    the attributes it has in the document: a definition is captured
    wherever it stands, also as a sub-field of a row, and the correlator
    state is the initial one. *)
Theorem main_loop_state (args : Args.t) (root : Element) :
  main_loop args root =
    mkState (fold_left capture (postorder root) (tabs init)) (corr init).
Proof.
  pose proof (main_loop_corr args root) as Hcorr.
  assert (tabs (main_loop args root) =
          fold_left capture (postorder root) (tabs init)) as Htabs.
  { rewrite main_loop_run. unfold run.
    by rewrite events_postorder, tabs_fold_loop_body. }
  destruct (main_loop args root) as [tb c]. cbn in Hcorr, Htabs. by subst.
Qed.

Example main_loop_nested_def :
  main_loop Args.default document_nested_def =
    mkState (mkTables {[ "5" := "Begin" ]} ∅ ∅ ∅ {[ "2" := "main" ]}) (corr init).
Proof. reflexivity. Qed.

Lemma one_row_per_name_witness :
  let c := corr (run Args.default stream_load) in
  let r := report_row ("Load", [4000]) in
  row_count r = 1%nat ∧ row_total r = sum (samples_of (durations_by_name c) "Load").
Proof.
  destruct (one_row_per_name Args.default stream_load) as (_ & _ & H).
  destruct (H (report_row ("Load", [4000]))) as (_ & Hcount & Htotal).
  - apply list_elem_of_here.
  - exact (conj Hcount Htotal).
Defined.


(** ** The pass as two passes *)

(** X23.  A pass over a stream factors into the pass that fills the
    tables and the pass of the correlator: the tables after the stream are
    the captures of its elements in order, whatever the arguments and the
    records are, and the correlator state is the correlation, in order, of
    the records of the stream that pass the filters. *)
Theorem pass_factors (args : Args.t) (stream : list Element) (st : State) :
  fold_left (loop_body args) stream st =
    mkState (fold_left capture stream (tabs st))
            (fold_left correlate (records_of args (tabs st) stream) (corr st)).
Proof.
  rewrite <- corr_fold_loop_body.
  assert (tabs (fold_left (loop_body args) stream st) =
          fold_left capture stream (tabs st)) as Htabs.
  { revert st. induction stream as [|e l IH]; intros st; [done|].
    cbn [fold_left]. by rewrite IH, tabs_loop_body. }
  rewrite <- Htabs. by destruct (fold_left (loop_body args) stream st).
Qed.

Example pass_factors_end_alone :
  records_of Args.default (tabs init) [row_end_alone; def_end_kind; row_end_alone]
    = [mkEvent 700 "Interval End" "Load" "t1" "0xB" None] ∧
  fold_left capture [row_end_alone; def_end_kind; row_end_alone] (tabs init)
    = mkTables {[ "9" := "Interval End" ]} ∅ ∅ ∅ ∅.
Proof. split; reflexivity. Qed.

(** ** The formatted time *)

Lemma forget_fmt_correlate (c : Corr) (e : Event) :
  forget_fmt (correlate c e) = correlate (forget_fmt c) (erase_fmt e).
Proof.
  destruct (begins e) eqn:Hb.
  { rewrite correlate_begins by done.
    rewrite (correlate_begins (forget_fmt c) (erase_fmt e)) by done.
    unfold forget_fmt. cbn. by rewrite fmap_insert. }
  destruct (ends e) eqn:He;
    [|rewrite correlate_dropped by done;
      by rewrite (correlate_dropped (forget_fmt c) (erase_fmt e))].
  destruct (open_intervals c !! ev_key e) as [[[t0 n0] f0]|] eqn:Ho.
  - rewrite (correlate_ends_open c e t0 n0 f0) by done.
    rewrite (correlate_ends_open (forget_fmt c) (erase_fmt e) t0 n0 None);
      [| done | unfold forget_fmt; cbn; change (ev_key (erase_fmt e)) with (ev_key e);
                by rewrite lookup_fmap, Ho].
    cbn [erase_fmt ev_time]. change (ev_key (erase_fmt e)) with (ev_key e).
    unfold forget_fmt. destruct (0 <=? _); cbn; by rewrite fmap_delete.
  - rewrite correlate_ends_absent by done.
    rewrite (correlate_ends_absent (forget_fmt c) (erase_fmt e));
      [done | done |].
    unfold forget_fmt. cbn. change (ev_key (erase_fmt e)) with (ev_key e).
    by rewrite lookup_fmap, Ho.
Qed.

(** X24.  The formatted time of a record is stored with its open interval
    and never read: erasing it from every record changes nothing in the
    result of the correlator but the stored formatted times themselves; the
    sample lists, the two counters and the open keys with their start times
    and names are the same. *)
Theorem time_fmt_never_read (evs : list Event) (c : Corr) :
  let c1 := fold_left correlate evs c in
  let c2 := fold_left correlate (erase_fmt <$> evs) (forget_fmt c) in
  c2 = forget_fmt c1 ∧
  durations_by_name c2 = durations_by_name c1 ∧
  matched c2 = matched c1 ∧ unmatched_ends c2 = unmatched_ends c1 ∧
  dom (open_intervals c2) = dom (open_intervals c1).
Proof.
  cbn zeta.
  assert (fold_left correlate (erase_fmt <$> evs) (forget_fmt c) =
          forget_fmt (fold_left correlate evs c)) as ->.
  { revert c. induction evs as [|e evs IH]; intros c; [done|].
    cbn [fmap list_fmap fold_left]. by rewrite <- forget_fmt_correlate, IH. }
  repeat split. unfold forget_fmt. cbn. apply dom_fmap_L.
Qed.
